(** * DANA-EO: flood analysis pipeline over Earth Engine rasters

    A shallow embedding of the raster pipeline of [DANA-EO.ipynb]
    (cloud masking, histogram matching, mean-injection pansharpening,
    normalized-difference indices, thresholded area sums and the
    elevation risk map), together with the properties the specification
    states about it.

    Samples are exact rationals: rounding of the floating-point numbers
    the service computes with is not modelled.  A raster lives on a fixed
    grid whose pixels are numbered; a region is the list of the pixels it
    covers, so the [scale] arguments of the source, which only select that
    grid, are carried along uninterpreted. *)

From Stdlib Require Import QArith Qminmax Lqa ZArith List.
From stdpp Require Import base option list strings pretty gmap.

Local Open Scope Q_scope.

(** ** Earth Engine primitives the notebook calls *)

Module EE.

(** A pixel of the working grid. *)
Definition pixel := nat.

(** A sample is a value or is masked ([None]). *)
Definition sample := option Q.

Definition band := pixel → sample.

(** An image: its bands in order, each under its name. *)
Definition image := list (string * band).

Definition geometry := list pixel.

(** Equality of samples as rational numbers. *)
Definition sample_eq (a b : sample) : Prop :=
  match a, b with
  | Some x, Some y => x == y
  | None, None => True
  | _, _ => False
  end.

Definition band_eq (f g : band) : Prop := ∀ p, sample_eq (f p) (g p).

(** A Python number handed to the service: a finite value or
    [float('inf')]. *)
Inductive number :=
  | Finite (q : Q)
  | PosInf.

Definition b2q (b : bool) : Q := if b then 1 else 0.

Definition Qgt_bool (x y : Q) : bool := negb (Qle_bool x y).

(** [Image.divide]: "returning 0 for division by 0". *)
Definition ee_div (x y : Q) : Q := if Qeq_bool y 0 then 0 else x / y.

(** A binary operation is evaluated where both operands are valid. *)
Definition lift2 (f : Q → Q → Q) (a b : band) : band :=
  λ p, match a p, b p with
       | Some x, Some y => Some (f x y)
       | _, _ => None
       end.

Definition constant (c : Q) : band := λ _, Some c.

Definition add : band → band → band := lift2 Qplus.
Definition subtract : band → band → band := lift2 Qminus.
Definition multiply : band → band → band := lift2 Qmult.
Definition divide : band → band → band := lift2 ee_div.

Definition gt_number (x : Q) (t : number) : bool :=
  match t with
  | Finite q => Qgt_bool x q
  | PosInf => false
  end.

(** Comparisons give 1 where they hold and 0 elsewhere. *)
Definition gt (a : band) (t : number) : band :=
  λ p, (λ x, b2q (gt_number x t)) <$> a p.

Definition lte (a : band) (t : Q) : band :=
  λ p, (λ x, b2q (Qle_bool x t)) <$> a p.

Definition neq (a : band) (t : Q) : band :=
  λ p, (λ x, b2q (negb (Qeq_bool x t))) <$> a p.

Definition And : band → band → band :=
  lift2 (λ x y, b2q (negb (Qeq_bool x 0) && negb (Qeq_bool y 0))).

(** [updateMask]: a pixel stays valid where it was valid and the mask
    is valid and non-zero. *)
Definition updateMask (a mask : band) : band :=
  λ p, match a p, mask p with
       | Some x, Some m => if Qeq_bool m 0 then None else Some x
       | _, _ => None
       end.

(** [clip]: pixels outside the geometry are masked. *)
Definition clip (a : band) (g : geometry) : band :=
  λ p, if bool_decide (p ∈ g) then a p else None.

(** [select]: the first band of that name; a missing band is an error. *)
Fixpoint select (img : image) (name : string) : option band :=
  match img with
  | [] => None
  | (n, b) :: rest => if decide (n = name) then Some b else select rest name
  end.

Definition bandNames (img : image) : list string := img.*1.

Definition map_bands (f : band → band) (img : image) : image :=
  prod_map id f <$> img.

(** The name [addBands] gives a band whose own name the image already
    has: the name followed by [_1], or by the first of [_2], [_3], ...
    that is free.  Among [S (length used)] such names one is free, so
    the last candidate needs no test. *)
Fixpoint free_suffix (used : list string) (name : string) (k fuel : nat) :
    string :=
  let candidate := name +:+ "_" +:+ pretty k in
  match fuel with
  | O => candidate
  | S fuel' =>
      if decide (candidate ∈ used)
      then free_suffix used name (S k) fuel'
      else candidate
  end.

Definition added_name (used : list string) (name : string) : string :=
  if decide (name ∈ used)
  then free_suffix used name 1 (length used)
  else name.

(** [addBands] without [overwrite]: the bands of [extra] are appended in
    order, each under its name, or renamed where that name is taken. *)
Definition addBands (img extra : image) : image :=
  foldl (λ acc nb, acc ++ [(added_name (bandNames acc) nb.1, nb.2)])
        img extra.
Global Arguments addBands : simpl never.

(** [ee.Image.cat]: the bands of the images in order; there must be at
    least one image. *)
Definition cat (imgs : list band) : option (list band) :=
  match imgs with
  | [] => None
  | _ :: _ => Some imgs
  end.

(** [rename]: new band names, by position. *)
Definition rename (bs : list band) (names : list string) : image :=
  zip names bs.

Definition band_of_list (l : list sample) : band := λ p, mjoin (l !! p).

(** The valid samples of a band inside a geometry. *)
Definition valid_values (a : band) (g : geometry) : list Q := omap a g.

Definition Qlist_min (l : list Q) : option Q :=
  match l with
  | [] => None
  | x :: rest => Some (foldl Qmin x rest)
  end.

Definition Qlist_max (l : list Q) : option Q :=
  match l with
  | [] => None
  | x :: rest => Some (foldl Qmax x rest)
  end.

Definition Qsum (l : list Q) : Q := foldr Qplus 0 l.

(** An [ee.Dictionary] of statistics; an entry may hold null ([None]). *)
Definition get (d : gmap string (option Q)) (key : string) : option Q :=
  mjoin (d !! key).

(** [reduceRegion] with [Reducer.minMax]: for every band the entries
    [<band>_min] and [<band>_max] over the valid samples of the region;
    a statistic of no samples is null.  The grid is fixed, so [scale] is
    not interpreted. *)
Definition reduceRegion_minMax (img : image) (g : geometry) (scale : Q) :
    gmap string (option Q) :=
  foldr (λ nb d,
           <[nb.1 +:+ "_min" := Qlist_min (valid_values nb.2 g)]>
             (<[nb.1 +:+ "_max" := Qlist_max (valid_values nb.2 g)]> d))
        ∅ img.

(** [reduceRegion] with [Reducer.sum]: for every band the sum of its
    valid samples in the region; the sum of no samples is 0.  A region of
    more than [maxPixels] pixels is refused. *)
Definition reduceRegion_sum
    (img : image) (g : geometry) (scale : Q) (maxPixels : Z) :
    option (gmap string Q) :=
  if bool_decide (Z.of_nat (length g) ≤ maxPixels)%Z
  then Some (foldr (λ nb d, <[nb.1 := Qsum (valid_values nb.2 g)]> d) ∅ img)
  else None.

(** [Image.reduce] with [Reducer.mean]: per pixel, the mean of the bands
    that are valid there; masked where none is. *)
Definition reduce_mean (img : image) : band :=
  λ p, let vs := omap (λ nb : string * band, nb.2 p) img in
       match vs with
       | [] => None
       | _ => Some (Qsum vs / inject_Z (Z.of_nat (length vs)))
       end.

(** Modelled from the spec: what [normalizedDifference] gives where the
    two inputs sum to zero.  The function is the service's, its code is
    not in the repository and its documentation does not say; the
    specification has such a pixel "masked invalid rather than propagated
    as NaN or infinity". *)
Definition zero_sum_sample : sample := None.

(** [normalizedDifference]: (first − second) / (first + second); "a
    negative pixel value in either input band will cause the output
    pixel to be masked". *)
Definition normalizedDifference (img : image) (first second : string) :
    option band :=
  a ← select img first;
  b ← select img second;
  Some (λ p, match a p, b p with
             | Some x, Some y =>
                 if Qle_bool 0 x && Qle_bool 0 y
                 then if Qeq_bool (x + y) 0
                      then zero_sum_sample
                      else Some ((x - y) / (x + y))
                 else None
             | _, _ => None
             end).

(** [Image.pixelArea] over a grid whose pixel [p] covers [area p] m². *)
Definition pixelArea (area : pixel → Q) : band := λ p, Some (area p).

(** *** Image collections *)

(** Days since 1970-01-01 of a calendar date, as [filterDate] reads the
    strings ['YYYY-MM-DD']. *)
Definition date (y m d : Z) : Z :=
  let y' := (if m <=? 2 then y - 1 else y)%Z in
  let era := (y' / 400)%Z in
  let yoe := (y' - era * 400)%Z in
  let mp := (if 2 <? m then m - 3 else m + 9)%Z in
  let doy := ((153 * mp + 2) / 5 + d - 1)%Z in
  let doe := (yoe * 365 + yoe / 4 - yoe / 100 + doy)%Z in
  (era * 146097 + doe - 719468)%Z.

(** An element of a collection: the image with the properties the
    notebook filters on. *)
Record scene := Scene {
  time_start : Z;
  CLOUDY_PIXEL_PERCENTAGE : Q;
  footprint : geometry;
  bands : image
}.

Definition ImageCollection := list scene.

Definition filterBounds (g : geometry) (c : ImageCollection) :
    ImageCollection :=
  filter (λ s, Exists (λ p, p ∈ g) (footprint s)) c.

(** [filterDate start end]: start inclusive, end exclusive. *)
Definition filterDate (start stop : Z) (c : ImageCollection) :
    ImageCollection :=
  filter (λ s, (start ≤ time_start s)%Z ∧ (time_start s < stop)%Z) c.

Definition filter_lt_cloudy (limit : Q) (c : ImageCollection) :
    ImageCollection :=
  List.filter (λ s, Qgt_bool limit (CLOUDY_PIXEL_PERCENTAGE s)) c.

(** [map] of a fallible function over a collection. *)
Definition map_collection (f : image → option image) (c : ImageCollection) :
    option ImageCollection :=
  mapM (λ s, b ← f (bands s);
             Some (Scene (time_start s) (CLOUDY_PIXEL_PERCENTAGE s)
                         (footprint s) b)) c.

Fixpoint Qinsert (x : Q) (l : list Q) : list Q :=
  match l with
  | [] => [x]
  | y :: rest => if Qle_bool x y then x :: l else y :: Qinsert x rest
  end.

Definition Qsort (l : list Q) : list Q := foldr Qinsert [] l.

(** The median of the values: the middle one, or the mean of the two
    middle ones. *)
Definition Qmedian (l : list Q) : option Q :=
  let s := Qsort l in
  let n := length s in
  if Nat.even n
  then lo ← s !! (n / 2 - 1)%nat; hi ← s !! (n / 2)%nat; Some ((lo + hi) / 2)
  else s !! (n / 2)%nat.

(** [ImageCollection.median]: per band of the first image and per pixel,
    the median of the samples valid there. *)
Definition median (c : ImageCollection) : image :=
  match c with
  | [] => []
  | s0 :: _ =>
      (λ nb : string * band,
         (nb.1, (λ p, Qmedian (omap (λ s, b ← select (bands s) nb.1; b p) c))
                : band))
        <$> bands s0
  end.

End EE.

(** ** The notebook *)

(** *** Elevation risk map of [main] *)

Module main_risk.

Definition low_risk (dem : EE.band) : EE.band := EE.gt dem (EE.Finite 50).

Definition medium_risk (dem : EE.band) : EE.band :=
  EE.And (EE.lte dem 50) (EE.gt dem (EE.Finite 10)).

Definition high_risk (dem : EE.band) : EE.band := EE.lte dem 10.

Definition flood_risk_vis (dem : EE.band) : EE.band :=
  EE.add
    (EE.add (EE.multiply (low_risk dem) (EE.constant 1))
            (EE.multiply (medium_risk dem) (EE.constant 2)))
    (EE.multiply (high_risk dem) (EE.constant 3)).

End main_risk.

(** *** [histogram_match_simple] *)

Section histogram_match_simple.
Variables (pre_flood_image post_flood_image : EE.image).
Variables (band_name : string) (region : EE.geometry) (scale : Q).

(** The inner [normalize]; a null statistic or a missing band makes the
    evaluation of the result fail ([None]). *)
Definition normalize (image : EE.image) (band_name : string) :
    option EE.band :=
  let stats := EE.reduceRegion_minMax image region scale in
  min_val ← EE.get stats (band_name +:+ "_min");
  max_val ← EE.get stats (band_name +:+ "_max");
  b ← EE.select image band_name;
  Some (EE.divide (EE.subtract b (EE.constant min_val))
                  (EE.constant (max_val - min_val))).

Definition histogram_match_simple : option EE.image :=
  pre_flood_normalized ← normalize pre_flood_image band_name;
  let post_flood_normalized := normalize post_flood_image band_name in
  let post_stats := EE.reduceRegion_minMax post_flood_image region scale in
  post_min ← EE.get post_stats (band_name +:+ "_min");
  post_max ← EE.get post_stats (band_name +:+ "_max");
  let matched :=
    EE.add (EE.multiply pre_flood_normalized
                        (EE.constant (post_max - post_min)))
           (EE.constant post_min) in
  Some [(band_name +:+ "_matched", matched)].
End histogram_match_simple.

(** *** [mask_sentinel2_clouds] *)

Definition mask_sentinel2_clouds (image : EE.image) : option EE.image :=
  scl ← EE.select image "SCL";
  let cloud_free :=
    EE.And (EE.And (EE.And (EE.And (EE.neq scl 3) (EE.neq scl 8))
                           (EE.neq scl 9))
                   (EE.neq scl 10))
           (EE.neq scl 11) in
  Some (EE.map_bands (λ b, EE.updateMask b cloud_free) image).

(** *** [pansharpen_simple_mean] *)

Definition pansharpen_simple_mean
    (multispectral : EE.image) (panchromatic : EE.band) (bands : list string) :
    option EE.image :=
  let multispectral_mean := EE.reduce_mean multispectral in
  pansharpened_bands ←
    mapM (λ band,
            b ← EE.select multispectral band;
            Some (EE.add b (EE.subtract panchromatic multispectral_mean)))
         bands;
  stacked ← EE.cat pansharpened_bands;
  Some (EE.rename stacked bands).

(** *** [calculate_indices] *)

Definition calculate_indices (image : EE.image) : option EE.image :=
  ndvi ← EE.normalizedDifference image "B8" "B4";
  ndwi ← EE.normalizedDifference image "B3" "B8";
  ndbi ← EE.normalizedDifference image "B11" "B8";
  Some (EE.addBands image [("NDVI", ndvi); ("NDWI", ndwi); ("NDBI", ndbi)]).

(** *** [calculate_area] *)

(** The tail of [calculate_area]: the look-up in the Python dictionary. *)
Definition area_km2 (area_stats_dict : gmap string Q) (band_name : string) :
    Q :=
  match area_stats_dict !! band_name with
  | None => 0
  | Some a => a / 1000000
  end.

Section calculate_area.
(** Ground area of each pixel, in m². *)
Variable area : EE.pixel → Q.

Definition calculate_area
    (image : EE.image) (roi : EE.geometry) (threshold : EE.number) :
    option Q :=
  let significant_area :=
    EE.map_bands (λ b, EE.updateMask b (EE.gt b threshold)) image in
  let pixel_area :=
    EE.map_bands (λ b, EE.multiply b (EE.pixelArea area)) significant_area in
  area_stats_dict ← EE.reduceRegion_sum pixel_area roi 10 (10 ^ 13);
  band_name ← EE.bandNames image !! 0%nat;
  Some (area_km2 area_stats_dict band_name).
End calculate_area.

(** *** The composites of [main] *)

Definition PRE_FLOOD_RANGE : Z * Z := (EE.date 2024 8 25, EE.date 2024 9 25).
Definition POST_FLOOD_RANGE : Z * Z := (EE.date 2024 9 26, EE.date 2024 11 25).

Section main.
(** The catalogue ['COPERNICUS/S2_SR'] and the region of interest. *)
Variables (S2_SR : EE.ImageCollection) (ROI : EE.geometry).

Definition sentinel2 : EE.ImageCollection :=
  EE.filter_lt_cloudy 40
    (EE.filterDate PRE_FLOOD_RANGE.1 POST_FLOOD_RANGE.2
       (EE.filterBounds ROI S2_SR)).

Definition pre_flood : option EE.ImageCollection :=
  EE.map_collection mask_sentinel2_clouds
    (EE.filterDate PRE_FLOOD_RANGE.1 PRE_FLOOD_RANGE.2 sentinel2).

Definition post_flood : option EE.ImageCollection :=
  EE.map_collection mask_sentinel2_clouds
    (EE.filterDate PRE_FLOOD_RANGE.1 POST_FLOOD_RANGE.2 sentinel2).

Definition pre_flood_median : option EE.image := EE.median <$> pre_flood.
Definition post_flood_median : option EE.image := EE.median <$> post_flood.

Definition pansharpened_image : option EE.image :=
  pre ← pre_flood_median;
  post ← post_flood_median;
  pre_flood_matched_b8 ← histogram_match_simple pre post "B8" ROI 10;
  let pre_flood_matched := EE.addBands pre pre_flood_matched_b8 in
  b4 ← EE.select pre_flood_matched "B4";
  b3 ← EE.select pre_flood_matched "B3";
  b2 ← EE.select pre_flood_matched "B2";
  let multispectral := [("B4", b4); ("B3", b3); ("B2", b2)] in
  panchromatic ← EE.select pre_flood_matched "B8_matched";
  pansharpen_simple_mean multispectral panchromatic ["B4"; "B3"; "B2"].

(** The post-event epoch as the specification words it: the cloud-masked
    observations acquired inside the post-event window. *)
Definition post_epoch_observations : option EE.ImageCollection :=
  EE.map_collection mask_sentinel2_clouds
    (EE.filterDate POST_FLOOD_RANGE.1 POST_FLOOD_RANGE.2 sentinel2).

Definition post_epoch_composite : option EE.image :=
  EE.median <$> post_epoch_observations.
End main.

(** The statistics the matcher reads: minimum and maximum of a named
    band over the valid samples of the region. *)
Definition band_min (img : EE.image) (name : string) (g : EE.geometry) :
    option Q :=
  b ← EE.select img name; EE.Qlist_min (EE.valid_values b g).

Definition band_max (img : EE.image) (name : string) (g : EE.geometry) :
    option Q :=
  b ← EE.select img name; EE.Qlist_max (EE.valid_values b g).

(** Results of a fallible evaluation, compared band by band. *)
Definition image_eq (a b : EE.image) : Prop :=
  Forall2 (λ x y, x.1 = y.1 ∧ EE.band_eq x.2 y.2) a b.

Definition result_eq (a b : option EE.image) : Prop :=
  match a, b with
  | Some x, Some y => image_eq x y
  | None, None => True
  | _, _ => False
  end.

(** Reading a result: the sample of a named band at a pixel, and the
    acquisition dates of a collection. *)
Definition sample_at (r : option EE.image) (name : string) (p : EE.pixel) :
    EE.sample :=
  img ← r; b ← EE.select img name; b p.

Definition acquisition_dates (r : option EE.ImageCollection) :
    option (list Z) :=
  (λ c : EE.ImageCollection, EE.time_start <$> c) <$> r.

(** *** [create_output_directory] *)


Module os.






End os.


(** *** The indices, areas and risk map of [main] *)

Definition NDVI_THRESHOLD : EE.number := EE.Finite (1 # 1000).
Definition NDWI_THRESHOLD : EE.number := EE.Finite (1 # 1000).
Definition NDBI_THRESHOLD : EE.number := EE.Finite (1 # 1000).

(** Python's [/] on numbers: a zero divisor raises [ZeroDivisionError]. *)
Definition py_div (x y : Q) : option Q :=
  if Qeq_bool y 0 then None else Some (x / y).

(** [image.select(name)] as an image of one band. *)
Definition select_image (img : EE.image) (name : string) : option EE.image :=
  b ← EE.select img name; Some [(name, b)].

(** [a.subtract(b)] on images of one band: the name of the first. *)
Definition subtract_image (a b : EE.image) : option EE.image :=
  match a, b with
  | [(n, x)], [(_, y)] => Some [(n, EE.subtract x y)]
  | _, _ => None
  end.

Section main_analysis.
Variables (S2_SR : EE.ImageCollection) (ROI : EE.geometry).
(** Ground area of each pixel, in m², and the elevation model
    ['USGS/SRTMGL1_003']. *)
Variables (area : EE.pixel → Q) (SRTMGL1_003 : EE.image).

(** [ROI.area().divide(1e6)]: the area of a region is the sum of the
    areas of its pixels. *)
Definition total_area : Q := EE.Qsum (area <$> ROI) / 1000000.

Definition pre_flood_indices : option EE.image :=
  pre_flood_median S2_SR ROI ≫= calculate_indices.

Definition post_flood_indices : option EE.image :=
  post_flood_median S2_SR ROI ≫= calculate_indices.

Definition pre_ndvi := pre_flood_indices ≫= λ i, select_image i "NDVI".
Definition post_ndvi := post_flood_indices ≫= λ i, select_image i "NDVI".
Definition pre_ndwi := pre_flood_indices ≫= λ i, select_image i "NDWI".
Definition post_ndwi := post_flood_indices ≫= λ i, select_image i "NDWI".
Definition pre_ndbi := pre_flood_indices ≫= λ i, select_image i "NDBI".
Definition post_ndbi := post_flood_indices ≫= λ i, select_image i "NDBI".

Definition ndvi_diff : option EE.image :=
  a ← post_ndvi; b ← pre_ndvi; subtract_image a b.
Definition ndwi_diff : option EE.image :=
  a ← post_ndwi; b ← pre_ndwi; subtract_image a b.
Definition ndbi_diff : option EE.image :=
  a ← post_ndbi; b ← pre_ndbi; subtract_image a b.

Definition pre_ndvi_area : option Q :=
  pre_ndvi ≫= λ i, calculate_area area i ROI NDVI_THRESHOLD.
Definition post_ndvi_area : option Q :=
  post_ndvi ≫= λ i, calculate_area area i ROI NDVI_THRESHOLD.
Definition pre_ndwi_area : option Q :=
  pre_ndwi ≫= λ i, calculate_area area i ROI NDWI_THRESHOLD.
Definition post_ndwi_area : option Q :=
  post_ndwi ≫= λ i, calculate_area area i ROI NDWI_THRESHOLD.
Definition pre_ndbi_area : option Q :=
  pre_ndbi ≫= λ i, calculate_area area i ROI NDBI_THRESHOLD.
Definition post_ndbi_area : option Q :=
  post_ndbi ≫= λ i, calculate_area area i ROI NDBI_THRESHOLD.

Definition ndvi_area_change : option Q :=
  a ← post_ndvi_area; b ← pre_ndvi_area; Some (a - b).
Definition ndwi_area_change : option Q :=
  a ← post_ndwi_area; b ← pre_ndwi_area; Some (a - b).
Definition ndbi_area_change : option Q :=
  a ← post_ndbi_area; b ← pre_ndbi_area; Some (a - b).

Definition ndvi_percentage_change : option Q :=
  c ← ndvi_area_change; q ← py_div c total_area; Some (q * 100).
Definition ndwi_percentage_change : option Q :=
  c ← ndwi_area_change; q ← py_div c total_area; Some (q * 100).
Definition ndbi_percentage_change : option Q :=
  c ← ndbi_area_change; q ← py_div c total_area; Some (q * 100).

Definition ndwi_increase : option EE.image :=
  EE.map_bands (λ b, EE.updateMask b (EE.gt b (EE.Finite 0))) <$> ndwi_diff.

(** [select([0]).clip(ROI)]: the first band, masked outside the region. *)
Definition dem : option EE.band :=
  nb ← SRTMGL1_003 !! 0%nat; Some (EE.clip nb.2 ROI).

Definition flood_risk_vis : option EE.band := main_risk.flood_risk_vis <$> dem.
End main_analysis.

(** *** The cloud mask, pixel by pixel *)

(** A scene class that [mask_sentinel2_clouds] keeps. *)
Definition clear_scl (c : Q) : bool :=
  negb (Qeq_bool c 3) && negb (Qeq_bool c 8) && negb (Qeq_bool c 9)
  && negb (Qeq_bool c 10) && negb (Qeq_bool c 11).

(** The mask band [mask_sentinel2_clouds] builds from the [SCL] band. *)
Definition cloud_free_of (scl : EE.band) : EE.band :=
  EE.And (EE.And (EE.And (EE.And (EE.neq scl 3) (EE.neq scl 8))
                         (EE.neq scl 9))
                 (EE.neq scl 10))
         (EE.neq scl 11).

(** A scene and its cloud-masked counterpart in a mapped collection. *)
Definition masked_scene (s s' : EE.scene) : Prop :=
  mask_sentinel2_clouds (EE.bands s) = Some (EE.bands s') ∧
  EE.time_start s' = EE.time_start s ∧
  EE.CLOUDY_PIXEL_PERCENTAGE s' = EE.CLOUDY_PIXEL_PERCENTAGE s ∧
  EE.footprint s' = EE.footprint s.

(** *** Sample rasters *)

Module samples.

Definition roi3 : EE.geometry := [0; 1; 2]%nat.

(** A constant near-infrared band (minimum = maximum = 7). *)
Definition flat_pre : EE.image :=
  [("B8", EE.band_of_list [Some 7; Some 7; Some 7])].

Definition ramp_post : EE.image :=
  [("B8", EE.band_of_list [Some 10; Some 20; Some 30])].

Definition ramp_pre : EE.image :=
  [("B4", EE.band_of_list [Some 1; Some 2; Some 3]);
   ("B8", EE.band_of_list [Some 2; Some 4; None; Some 6])].

Definition one_pixel (b8 : Q) : EE.image :=
  [("B8", EE.constant b8); ("SCL", EE.constant 4)].

(** Two clear acquisitions before the event and three after it. *)
Definition catalogue : EE.ImageCollection :=
  [EE.Scene (EE.date 2024 9 1) 5 [0%nat] (one_pixel 10);
   EE.Scene (EE.date 2024 9 10) 5 [0%nat] (one_pixel 20);
   EE.Scene (EE.date 2024 10 1) 5 [0%nat] (one_pixel 100);
   EE.Scene (EE.date 2024 10 10) 5 [0%nat] (one_pixel 200);
   EE.Scene (EE.date 2024 11 1) 5 [0%nat] (one_pixel 300)].

(** Another reference with the statistics of [ramp_post] over [roi3]. *)
Definition ends_post : EE.image :=
  [("B8", EE.band_of_list [Some 30; Some 10; Some 10; Some 99])].

(** A vegetation index over four pixels. *)
Definition ndvi4_band : EE.band :=
  EE.band_of_list [Some (1 # 2); Some (1 # 4); None; Some (-1 # 2)].

Definition ndvi4 : EE.image := [("NDVI", ndvi4_band)].

Definition roi4 : EE.geometry := [0; 1; 2; 3]%nat.

(** Near-infrared and red with a zero, a negative and a masked sample. *)
Definition ramp_mix : EE.image :=
  [("B8", EE.band_of_list [Some 0; Some 3; Some (-1); Some 1]);
   ("B4", EE.band_of_list [Some 0; Some 1; Some 1])].

End samples.

(** *** Sample scenes *)

Module fixtures.

Definition plot : EE.geometry := [0; 1; 2]%nat.

Definition six_bands (b8 b4 b3 b11 b2 scl : list EE.sample) : EE.image :=
  [("B8", EE.band_of_list b8); ("B4", EE.band_of_list b4);
   ("B3", EE.band_of_list b3); ("B11", EE.band_of_list b11);
   ("B2", EE.band_of_list b2); ("SCL", EE.band_of_list scl)].

(** Vegetation, a high cloud (class 9) and water. *)
Definition early : EE.image :=
  six_bands [Some 3000; Some 2500; Some 400] [Some 1000; Some 2400; Some 300]
            [Some 900; Some 2300; Some 600] [Some 2000; Some 2600; Some 200]
            [Some 800; Some 2200; Some 500] [Some 4; Some 9; Some 6].

Definition late : EE.image :=
  six_bands [Some 2000; Some 2800; Some 300] [Some 1200; Some 900; Some 350]
            [Some 1000; Some 950; Some 900] [Some 2400; Some 1800; Some 250]
            [Some 850; Some 700; Some 650] [Some 5; Some 4; Some 6].

(** One pre-event scene, one scene too cloudy to pass, one post-event
    scene. *)
Definition archive : EE.ImageCollection :=
  [EE.Scene (EE.date 2024 9 5) 10 [0; 1]%nat early;
   EE.Scene (EE.date 2024 9 12) 55 [0; 1; 2]%nat late;
   EE.Scene (EE.date 2024 10 20) 20 [1; 2]%nat late].

Definition hectare : EE.pixel → Q := λ _, 10000.

Definition elevation : EE.image :=
  [("elevation", EE.band_of_list [Some 60; Some 50; None; Some 5])].

End fixtures.

(** ** Properties *)

(** *** Numbers, samples and names *)
Lemma Qgt_bool_iff x y : EE.Qgt_bool x y = true ↔ y < x.
Proof.
  unfold EE.Qgt_bool. rewrite negb_true_iff.
  destruct (Qle_bool x y) eqn:E.
  - apply Qle_bool_iff in E. split; [discriminate | lra].
  - split; [intros _ | reflexivity].
    destruct (Qlt_le_dec y x) as [H | H]; [exact H |].
    apply Qle_bool_iff in H. congruence.
Qed.

Lemma sample_eq_refl a : EE.sample_eq a a.
Proof. destruct a; simpl; [reflexivity | exact I]. Qed.

Lemma ee_div_nonzero x y : ¬ y == 0 → EE.ee_div x y == x / y.
Proof.
  intros H. unfold EE.ee_div. destruct (Qeq_bool y 0) eqn:E; [| reflexivity].
  apply Qeq_bool_iff in E. contradiction.
Qed.

Lemma ee_div_zero x y : y == 0 → EE.ee_div x y = 0.
Proof.
  intros H. unfold EE.ee_div. apply Qeq_bool_iff in H. by rewrite H.
Qed.

Lemma Qsum_cons x l : EE.Qsum (x :: l) = x + EE.Qsum l.
Proof. reflexivity. Qed.



Lemma string_app_length (s t : string) :
  String.length (s +:+ t) = (String.length s + String.length t)%nat.
Proof. induction s as [| a s IH]; simpl; [reflexivity | by rewrite IH]. Qed.

Lemma string_app_suffix_inj (s1 s2 t1 t2 : string) :
  String.length t1 = String.length t2 →
  s1 +:+ t1 = s2 +:+ t2 → s1 = s2 ∧ t1 = t2.
Proof.
  intros Hlen. revert s2.
  induction s1 as [| a s1 IH]; intros [| b s2] Heq; simpl in Heq.
  - done.
  - apply (f_equal String.length) in Heq.
    rewrite !string_app_length in Heq. simpl in Heq. exfalso. lia.
  - apply (f_equal String.length) in Heq.
    rewrite !string_app_length in Heq. simpl in Heq. exfalso. lia.
  - injection Heq as -> Heq. destruct (IH _ Heq) as [-> ->]. done.
Qed.

Lemma matched_name_fresh (b : string) : b +:+ "_matched" ≠ b.
Proof.
  intros H. apply (f_equal String.length) in H.
  rewrite string_app_length in H. simpl in H. lia.
Qed.

(** *** Elevation risk map *)

(** C4.  On every valid elevation sample the risk map carries exactly
    one of the codes 1, 2, 3: code 1 iff the elevation is above 50,
    code 2 iff it lies in (10, 50], code 3 iff it is at most 10.  In
    particular 60 gives 1, exactly 50 gives 2 and 5 gives 3. *)
Theorem flood_risk_vis_classes (dem : EE.band) (p : EE.pixel) (e : Q) :
  dem p = Some e →
  (∃ c, main_risk.flood_risk_vis dem p = Some c ∧
        (c == 1 ↔ 50 < e) ∧
        (c == 2 ↔ 10 < e ∧ e <= 50) ∧
        (c == 3 ↔ e <= 10)) ∧
  EE.sample_eq (main_risk.flood_risk_vis (EE.constant 60) p) (Some 1) ∧
  EE.sample_eq (main_risk.flood_risk_vis (EE.constant 50) p) (Some 2) ∧
  EE.sample_eq (main_risk.flood_risk_vis (EE.constant 5) p) (Some 3).
Proof.
  intros He. split; [| repeat split; vm_compute; reflexivity].
  unfold main_risk.flood_risk_vis, main_risk.low_risk, main_risk.medium_risk,
    main_risk.high_risk, EE.add, EE.multiply, EE.And, EE.gt, EE.lte,
    EE.lift2, EE.constant, EE.gt_number.
  rewrite He. cbn [fmap option_fmap option_map].
  eexists. split; [reflexivity |].
  destruct (EE.Qgt_bool e 50) eqn:H50; destruct (Qle_bool e 50) eqn:L50;
    destruct (EE.Qgt_bool e 10) eqn:H10; destruct (Qle_bool e 10) eqn:L10;
    repeat match goal with
    | H : EE.Qgt_bool _ _ = true |- _ => apply Qgt_bool_iff in H
    | H : EE.Qgt_bool _ _ = false |- _ =>
        apply not_true_iff_false in H; rewrite Qgt_bool_iff in H
    | H : Qle_bool _ _ = true |- _ => apply Qle_bool_iff in H
    | H : Qle_bool _ _ = false |- _ =>
        apply not_true_iff_false in H; rewrite Qle_bool_iff in H
    end;
    try lra;
    cbn; repeat split; intros; try lra; try discriminate;
    try (exfalso; vm_compute in *; congruence).
Qed.

(** The classification at elevation 42, inside (10, 50]. *)
Lemma flood_risk_vis_classes_witness :
  EE.constant 42 0%nat = Some 42 ∧
  ((∃ c, main_risk.flood_risk_vis (EE.constant 42) 0%nat = Some c ∧
         (c == 1 ↔ 50 < 42) ∧
         (c == 2 ↔ 10 < 42 ∧ 42 <= 50) ∧
         (c == 3 ↔ 42 <= 10)) ∧
   EE.sample_eq (main_risk.flood_risk_vis (EE.constant 60) 0%nat) (Some 1) ∧
   EE.sample_eq (main_risk.flood_risk_vis (EE.constant 50) 0%nat) (Some 2) ∧
   EE.sample_eq (main_risk.flood_risk_vis (EE.constant 5) 0%nat) (Some 3)).
Proof.
  split; [reflexivity |].
  apply (flood_risk_vis_classes (EE.constant 42) 0%nat 42). reflexivity.
Defined.

(** *** Radiometric matcher *)

(** The statistics dictionary holds, under [<band>_min] and [<band>_max],
    the extrema of the first band of that name. *)
Lemma reduceRegion_minMax_min img g scale b :
  EE.get (EE.reduceRegion_minMax img g scale) (b +:+ "_min") = band_min img b g.
Proof.
  unfold band_min, EE.get. induction img as [| [n a] img IH]; simpl; [done |].
  destruct (decide (n = b)) as [-> | Hne].
  - by rewrite lookup_insert_eq.
  - rewrite lookup_insert_ne.
    2:{ intros H. apply string_app_suffix_inj in H; [| done]. by destruct H. }
    rewrite lookup_insert_ne; [exact IH |].
    intros H. apply string_app_suffix_inj in H; [| done]. by destruct H.
Qed.

Lemma reduceRegion_minMax_max img g scale b :
  EE.get (EE.reduceRegion_minMax img g scale) (b +:+ "_max") = band_max img b g.
Proof.
  unfold band_max, EE.get. induction img as [| [n a] img IH]; simpl; [done |].
  rewrite lookup_insert_ne.
  2:{ intros H. apply string_app_suffix_inj in H; [| done]. by destruct H. }
  destruct (decide (n = b)) as [-> | Hne].
  - by rewrite lookup_insert_eq.
  - rewrite lookup_insert_ne; [exact IH |].
    intros H. apply string_app_suffix_inj in H; [| done]. by destruct H.
Qed.

(** With all four statistics present the matcher evaluates to one band. *)
Lemma histogram_match_simple_unfold
    pre post b region scale src smin smax rmin rmax :
  EE.select pre b = Some src →
  band_min pre b region = Some smin → band_max pre b region = Some smax →
  band_min post b region = Some rmin → band_max post b region = Some rmax →
  histogram_match_simple pre post b region scale =
    Some [(b +:+ "_matched",
           EE.add (EE.multiply
                     (EE.divide (EE.subtract src (EE.constant smin))
                                (EE.constant (smax - smin)))
                     (EE.constant (rmax - rmin)))
                  (EE.constant rmin))].
Proof.
  intros Hsrc Hsmin Hsmax Hrmin Hrmax.
  unfold histogram_match_simple, normalize.
  rewrite !reduceRegion_minMax_min, !reduceRegion_minMax_max.
  rewrite Hsmin, Hsmax, Hrmin, Hrmax, Hsrc. reflexivity.
Qed.

(** C2.  When the source band has a non-degenerate range over the region
    (and the reference band has statistics there), the matcher returns
    exactly one band, named [<band>_matched], a name different from the
    input band's, whose sample at every valid pixel is
    (source − src_min) / (src_max − src_min) * (ref_max − ref_min) + ref_min;
    masked pixels stay masked. *)
Theorem histogram_match_simple_linear
    pre post b region scale src smin smax rmin rmax :
  EE.select pre b = Some src →
  band_min pre b region = Some smin → band_max pre b region = Some smax →
  band_min post b region = Some rmin → band_max post b region = Some rmax →
  ¬ smax == smin →
  ∃ matched,
    histogram_match_simple pre post b region scale
      = Some [(b +:+ "_matched", matched)] ∧
    b +:+ "_matched" ≠ b ∧
    ∀ p, EE.sample_eq (matched p)
           ((λ v, (v - smin) / (smax - smin) * (rmax - rmin) + rmin)
              <$> src p).
Proof.
  intros Hsrc Hsmin Hsmax Hrmin Hrmax Hne.
  eexists. split; [by eapply histogram_match_simple_unfold |].
  split; [apply matched_name_fresh |].
  intros p. unfold EE.add, EE.multiply, EE.divide, EE.subtract, EE.lift2,
    EE.constant.
  destruct (src p) as [v |]; simpl; [| exact I].
  rewrite ee_div_nonzero; [reflexivity |].
  intros H. apply Hne. lra.
Qed.

(** The linear rescale on [ramp_pre] (range 2..4) against [ramp_post]
    (range 10..30). *)
Lemma histogram_match_simple_linear_witness :
  ∃ matched,
    histogram_match_simple samples.ramp_pre samples.ramp_post "B8"
      samples.roi3 10
      = Some [("B8_matched", matched)] ∧
    "B8_matched" ≠ "B8" ∧
    ∀ p, EE.sample_eq (matched p)
           ((λ v, (v - 2) / (4 - 2) * (30 - 10) + 10)
              <$> EE.band_of_list [Some 2; Some 4; None; Some 6] p).
Proof.
  apply (histogram_match_simple_linear samples.ramp_pre samples.ramp_post
           "B8" samples.roi3 10
           (EE.band_of_list [Some 2; Some 4; None; Some 6])
           2 4 10 30); try reflexivity.
  intros H. discriminate H.
Defined.

(** C3, as the code has it.  The matcher makes no range check: when the
    source minimum equals the source maximum, the division by the zero
    range yields 0 and the matched band is produced, equal to the
    reference minimum at every valid pixel. *)
Theorem histogram_match_simple_degenerate
    pre post b region scale src smin smax rmin rmax :
  EE.select pre b = Some src →
  band_min pre b region = Some smin → band_max pre b region = Some smax →
  band_min post b region = Some rmin → band_max post b region = Some rmax →
  smax == smin →
  ∃ matched,
    histogram_match_simple pre post b region scale
      = Some [(b +:+ "_matched", matched)] ∧
    ∀ p, EE.sample_eq (matched p) ((λ _, rmin) <$> src p).
Proof.
  intros Hsrc Hsmin Hsmax Hrmin Hrmax Heq.
  eexists. split; [by eapply histogram_match_simple_unfold |].
  intros p. unfold EE.add, EE.multiply, EE.divide, EE.subtract, EE.lift2,
    EE.constant.
  destruct (src p) as [v |]; simpl; [| exact I].
  rewrite ee_div_zero by lra. lra.
Qed.

(** The constant band [flat_pre] matched against [ramp_post]. *)
Lemma histogram_match_simple_degenerate_witness :
  ∃ matched,
    histogram_match_simple samples.flat_pre samples.ramp_post "B8"
      samples.roi3 10
      = Some [("B8_matched", matched)] ∧
    ∀ p, EE.sample_eq (matched p)
           ((λ _, 10) <$> EE.band_of_list [Some 7; Some 7; Some 7] p).
Proof.
  apply (histogram_match_simple_degenerate samples.flat_pre samples.ramp_post
           "B8" samples.roi3 10 (EE.band_of_list [Some 7; Some 7; Some 7])
           7 7 10 30); reflexivity.
Defined.

(** C3 as stated fails: on a constant source band (minimum = maximum = 7)
    the matcher signals nothing and returns a matched band, here with
    sample 10 at pixel 0. *)
Lemma constant_band_matched_without_error :
  band_min samples.flat_pre "B8" samples.roi3 = Some 7 ∧
  band_max samples.flat_pre "B8" samples.roi3 = Some 7 ∧
  ∃ matched,
    histogram_match_simple samples.flat_pre samples.ramp_post "B8"
      samples.roi3 10
      = Some [("B8_matched", matched)] ∧
    matched 0%nat = Some 10.
Proof.
  split; [reflexivity |]. split; [reflexivity |].
  eexists. split; reflexivity.
Qed.

(** C10.  The reference image enters the result only through the minimum
    and maximum of the named band over the region: two references with
    equal statistics give the same outcome, band by band and pixel by
    pixel (or both fail). *)
Theorem histogram_match_simple_reference_statistics
    pre post1 post2 b region scale :
  EE.sample_eq (band_min post1 b region) (band_min post2 b region) →
  EE.sample_eq (band_max post1 b region) (band_max post2 b region) →
  result_eq (histogram_match_simple pre post1 b region scale)
            (histogram_match_simple pre post2 b region scale).
Proof.
  intros Hmin Hmax. unfold histogram_match_simple.
  destruct (normalize region scale pre b) as [n |]; simpl; [| exact I].
  rewrite !reduceRegion_minMax_min, !reduceRegion_minMax_max.
  destruct (band_min post1 b region) as [m1 |],
           (band_min post2 b region) as [m2 |]; simpl in *; try done.
  destruct (band_max post1 b region) as [M1 |],
           (band_max post2 b region) as [M2 |]; simpl in *; try done.
  constructor; [| constructor]. split; [done |].
  intros p. simpl. unfold EE.add, EE.multiply, EE.lift2, EE.constant.
  destruct (n p); simpl; [| exact I]. rewrite Hmin, Hmax. reflexivity.
Qed.

(** [ramp_post] and [ends_post] differ as images but share minimum 10 and
    maximum 30 over [roi3]. *)
Lemma histogram_match_simple_reference_statistics_witness :
  result_eq
    (histogram_match_simple samples.ramp_pre samples.ramp_post "B8"
       samples.roi3 10)
    (histogram_match_simple samples.ramp_pre samples.ends_post "B8"
       samples.roi3 10).
Proof.
  apply histogram_match_simple_reference_statistics; vm_compute; reflexivity.
Defined.

(** *** Fusion sharpener *)
Lemma select_elem_of (ms : EE.image) n b :
  NoDup (EE.bandNames ms) → (n, b) ∈ ms → EE.select ms n = Some b.
Proof.
  unfold EE.bandNames. induction ms as [| [n' b'] ms IH]; simpl.
  - intros _ H. by apply elem_of_nil in H.
  - intros Hnd Hin. apply NoDup_cons in Hnd as [Hfresh Hnd].
    apply elem_of_cons in Hin as [Heq | Hin].
    + injection Heq as <- <-. by rewrite decide_True.
    + rewrite decide_False; [by apply IH |].
      intros ->. apply Hfresh. apply list_elem_of_fmap. by exists (n, b).
Qed.

Lemma zip_names_bands (f : EE.band → EE.band) (l : EE.image) :
  zip (EE.bandNames l) (f <$> l.*2) = EE.map_bands f l.
Proof.
  unfold EE.bandNames, EE.map_bands.
  induction l as [| [n b] l IH]; simpl; [done |]. f_equal. exact IH.
Qed.

Lemma pansharpen_simple_mean_nil ms pan :
  pansharpen_simple_mean ms pan [] = None.
Proof. reflexivity. Qed.

Lemma pansharpen_simple_mean_bands ms pan :
  ms ≠ [] →
  NoDup (EE.bandNames ms) →
  pansharpen_simple_mean ms pan (EE.bandNames ms) =
    Some (EE.map_bands
            (λ b, EE.add b (EE.subtract pan (EE.reduce_mean ms))) ms).
Proof.
  intros Hne Hnd. unfold pansharpen_simple_mean.
  set (f := λ b, EE.add b (EE.subtract pan (EE.reduce_mean ms))).
  assert (Hsub : ∀ l : EE.image, l ⊆ ms →
            mapM (λ band, b ← EE.select ms band; Some (f b)) (EE.bandNames l)
              = Some (f <$> l.*2)).
  { induction l as [| [n b] l IH]; intros Hl; [done |].
    simpl. rewrite (select_elem_of ms n b Hnd) by (apply Hl; left).
    simpl. rewrite IH; [done |]. intros x Hx. apply Hl. by right. }
  rewrite Hsub by done. simpl.
  destruct ms as [| nb ms']; [done |]. simpl. f_equal.
  apply (zip_names_bands f (nb :: ms')).
Qed.

Lemma bandNames_map_bands f (l : EE.image) :
  EE.bandNames (EE.map_bands f l) = EE.bandNames l.
Proof.
  unfold EE.bandNames, EE.map_bands.
  induction l as [| [n b] l IH]; simpl; [done |]. f_equal. exact IH.
Qed.

Lemma reduce_mean_valid (ms : EE.image) n b p v :
  (n, b) ∈ ms → b p = Some v → is_Some (EE.reduce_mean ms p).
Proof.
  intros Hin Hb. unfold EE.reduce_mean.
  destruct (omap (λ nb : string * EE.band, nb.2 p) ms) as [| x l] eqn:E;
    [| by eexists].
  assert (v ∈ omap (λ nb : string * EE.band, nb.2 p) ms) as Hv.
  { apply list_elem_of_omap. by exists (n, b). }
  rewrite E in Hv. by apply elem_of_nil in Hv.
Qed.



(** C8.  When the reference band equals, at every pixel, the per-pixel mean
    of the bands of the multi-band input (bands uniquely named, all of
    them selected), the sharpener returns the input unchanged: the same
    band names, the same number of bands, and each output band equal to
    the input band at every pixel.  (An input of no band at all is not
    sharpened: stacking no band is an error.) *)
Theorem pansharpen_simple_mean_identity ms pan :
  NoDup (EE.bandNames ms) →
  EE.band_eq pan (EE.reduce_mean ms) →
  match ms with
  | [] => pansharpen_simple_mean ms pan (EE.bandNames ms) = None
  | _ :: _ =>
      ∃ out, pansharpen_simple_mean ms pan (EE.bandNames ms) = Some out ∧
             EE.bandNames out = EE.bandNames ms ∧
             length out = length ms ∧
             image_eq out ms
  end.
Proof.
  intros Hnd Hpan. destruct ms as [| nb0 ms0] eqn:Ems; [done |].
  rewrite <- Ems in *. assert (Hne : ms ≠ []) by by rewrite Ems.
  clear Ems.
  eexists. split; [by apply pansharpen_simple_mean_bands |].
  split; [apply bandNames_map_bands |].
  split; [unfold EE.map_bands; by rewrite length_fmap |].
  unfold EE.map_bands.
  apply Forall2_fmap_l, Forall_Forall2_diag, Forall_forall.
  intros [n b] Hin. split; [done |]. intros p. simpl.
  unfold EE.add, EE.subtract, EE.lift2.
  specialize (Hpan p).
  destruct (b p) as [v |] eqn:Hb; [| exact I].
  destruct (reduce_mean_valid ms n b p v Hin Hb) as [m Hm].
  rewrite Hm in *.
  destruct (pan p) as [r |]; simpl in *; [lra | done].
Qed.

(** Sharpening [ramp_pre] with its own band mean. *)
Lemma pansharpen_simple_mean_identity_witness :
  ∃ out,
    pansharpen_simple_mean samples.ramp_pre (EE.reduce_mean samples.ramp_pre)
      ["B4"; "B8"] = Some out ∧
    EE.bandNames out = ["B4"; "B8"] ∧
    length out = 2%nat ∧
    image_eq out samples.ramp_pre.
Proof.
  apply (pansharpen_simple_mean_identity samples.ramp_pre).
  - apply (bool_decide_unpack _). vm_compute. reflexivity.
  - intros p. apply sample_eq_refl.
Defined.



(** *** Area aggregator *)
Lemma significant_sample area (b : EE.band) t p :
  EE.multiply (EE.updateMask b (EE.gt b t)) (EE.pixelArea area) p =
    match b p with
    | Some v => if EE.gt_number v t then Some (v * area p) else None
    | None => None
    end.
Proof.
  unfold EE.multiply, EE.lift2, EE.updateMask, EE.gt, EE.pixelArea.
  destruct (b p) as [v |]; [| done]. simpl.
  by destruct (EE.gt_number v t).
Qed.

Lemma calculate_area_first_band area name b rest roi t :
  (Z.of_nat (length roi) ≤ 10 ^ 13)%Z →
  calculate_area area ((name, b) :: rest) roi t =
    Some (EE.Qsum
            (EE.valid_values
               (EE.multiply (EE.updateMask b (EE.gt b t)) (EE.pixelArea area))
               roi) / 1000000).
Proof.
  intros Hbudget. unfold calculate_area, EE.reduceRegion_sum.
  rewrite bool_decide_eq_true_2 by done. simpl.
  unfold area_km2. by rewrite lookup_insert_eq.
Qed.

Lemma Qsum_significant area (b : EE.band) t roi :
  EE.Qsum
    (EE.valid_values
       (EE.multiply (EE.updateMask b (EE.gt b t)) (EE.pixelArea area)) roi)
  == EE.Qsum
       ((λ p, match b p with
              | Some v => if EE.gt_number v t then v * area p else 0
              | None => 0
              end) <$> roi).
Proof.
  unfold EE.valid_values.
  induction roi as [| p roi IH]; [reflexivity |].
  rewrite fmap_cons, Qsum_cons, <- IH. cbn [omap list_omap].
  rewrite significant_sample.
  destruct (b p) as [v |]; [destruct (EE.gt_number v t) |];
    rewrite ?Qsum_cons; try reflexivity; ring.
Qed.

(** C5.  Within the pixel budget, the aggregate of the first band is the
    sum over the region of, for each valid pixel whose value is strictly
    above the threshold, its value times its ground area, divided by 10^6
    (m² to km²); a pixel at or below the threshold and a masked pixel add
    nothing, and a pixel masked by [updateMask] is masked whatever the
    underlying value. *)
Theorem calculate_area_sum area name b rest roi t :
  (Z.of_nat (length roi) ≤ 10 ^ 13)%Z →
  ∃ a, calculate_area area ((name, b) :: rest) roi t = Some a ∧
       a == EE.Qsum
              ((λ p, match b p with
                     | Some v => if EE.gt_number v t then v * area p else 0
                     | None => 0
                     end) <$> roi) / 1000000 ∧
       ∀ underlying mask,
         b = EE.updateMask underlying mask →
         ∀ p, mask p = None ∨ (∃ m, mask p = Some m ∧ m == 0) → b p = None.
Proof.
  intros Hbudget. eexists. split; [by apply calculate_area_first_band |].
  split.
  - apply Qmult_comp; [apply Qsum_significant | reflexivity].
  - intros underlying mask -> p. unfold EE.updateMask.
    intros Hm. destruct (underlying p); [| done].
    destruct Hm as [-> | (m & -> & Hm)]; [reflexivity |].
    apply Qeq_bool_iff in Hm. by rewrite Hm.
Qed.

(** Four pixels of 100 m²: two above the threshold, one masked, one
    below. *)
Lemma calculate_area_sum_witness :
  ∃ a, calculate_area (λ _, 100) samples.ndvi4 samples.roi4
         (EE.Finite (1 # 1000)) = Some a ∧
       a == EE.Qsum
              ((λ p, match samples.ndvi4_band p with
                     | Some v =>
                         if EE.gt_number v (EE.Finite (1 # 1000))
                         then v * 100 else 0
                     | None => 0
                     end) <$> samples.roi4) / 1000000 ∧
       ∀ underlying mask,
         samples.ndvi4_band = EE.updateMask underlying mask →
         ∀ p, mask p = None ∨ (∃ m, mask p = Some m ∧ m == 0) →
              samples.ndvi4_band p = None.
Proof.
  apply (calculate_area_sum (λ _, 100) "NDVI" samples.ndvi4_band []
           samples.roi4 (EE.Finite (1 # 1000))).
  vm_compute. discriminate.
Defined.

(** C6.  Within the pixel budget: a band absent from the dictionary of sums
    gives 0 instead of an error; when no valid pixel of the region lies
    above the threshold the aggregate is 0; in particular the threshold
    +infinity gives 0 on every raster. *)
Theorem calculate_area_no_significant_pixel area name b rest roi :
  (Z.of_nat (length roi) ≤ 10 ^ 13)%Z →
  (∀ (area_stats_dict : gmap string Q) band_name,
     area_stats_dict !! band_name = None →
     area_km2 area_stats_dict band_name = 0) ∧
  (∀ t, (∀ p v, p ∈ roi → b p = Some v → EE.gt_number v t = false) →
        ∃ a, calculate_area area ((name, b) :: rest) roi t = Some a ∧
             a == 0) ∧
  (∃ a, calculate_area area ((name, b) :: rest) roi EE.PosInf = Some a ∧
        a == 0).
Proof.
  intros Hbudget.
  assert (Hnone : ∀ t,
            (∀ p v, p ∈ roi → b p = Some v → EE.gt_number v t = false) →
            ∃ a, calculate_area area ((name, b) :: rest) roi t = Some a ∧
                 a == 0).
  { intros t Ht. eexists. split; [by apply calculate_area_first_band |].
    rewrite Qsum_significant.
    assert (EE.Qsum
              ((λ p, match b p with
                     | Some v => if EE.gt_number v t then v * area p else 0
                     | None => 0
                     end) <$> roi) == 0) as ->; [| reflexivity].
    clear Hbudget. induction roi as [| p roi IH]; [reflexivity |].
    rewrite fmap_cons, Qsum_cons, IH.
    - destruct (b p) as [v |] eqn:Hb; [| reflexivity].
      rewrite (Ht p v); [reflexivity | by left | done].
    - intros q v Hq. apply Ht. by right. }
  split; [| split].
  - intros d n Hd. unfold area_km2. by rewrite Hd.
  - exact Hnone.
  - apply Hnone. reflexivity.
Qed.

(** The raster [ndvi4] against the threshold +infinity. *)
Lemma calculate_area_no_significant_pixel_witness :
  ∃ a, calculate_area (λ _, 100) samples.ndvi4 samples.roi4 EE.PosInf
         = Some a ∧
       a == 0.
Proof.
  apply (calculate_area_no_significant_pixel (λ _, 100) "NDVI"
           samples.ndvi4_band [] samples.roi4).
  vm_compute. discriminate.
Defined.

(** *** Index engine *)

(** C7.  For bands A and B of an image, the index of (A, B) is valid
    exactly where the index of (B, A) is, and is its negation there; where
    both samples are valid, non-negative and do not sum to zero both
    indices are defined, with the values (A − B) / (A + B) and its
    negation; a pixel whose samples sum to zero is masked in both. *)
Theorem normalizedDifference_antisymmetric img A B a b :
  EE.select img A = Some a → EE.select img B = Some b →
  ∃ ab ba,
    EE.normalizedDifference img A B = Some ab ∧
    EE.normalizedDifference img B A = Some ba ∧
    (∀ p, EE.sample_eq (ab p) (Qopp <$> ba p)) ∧
    (∀ p x y, a p = Some x → b p = Some y → 0 <= x → 0 <= y →
              ¬ x + y == 0 →
              ∃ v w, ab p = Some v ∧ ba p = Some w ∧
                     v == (x - y) / (x + y) ∧ v == - w) ∧
    (∀ p x y, a p = Some x → b p = Some y → x + y == 0 →
              ab p = None ∧ ba p = None).
Proof.
  intros Ha Hb. unfold EE.normalizedDifference. rewrite Ha, Hb. simpl.
  eexists _, _. split; [reflexivity |]. split; [reflexivity |].
  split; [| split].
  - intros p. destruct (a p) as [x |], (b p) as [y |]; try exact I.
    rewrite (andb_comm (Qle_bool 0 y)).
    destruct (Qle_bool 0 x && Qle_bool 0 y); [| exact I].
    unfold EE.zero_sum_sample.
    destruct (Qeq_bool (x + y) 0) eqn:E1, (Qeq_bool (y + x) 0) eqn:E2.
    + exact I.
    + apply Qeq_bool_iff in E1. apply Qeq_bool_neq in E2.
      exfalso. apply E2. lra.
    + apply Qeq_bool_neq in E1. apply Qeq_bool_iff in E2.
      exfalso. apply E1. lra.
    + apply Qeq_bool_neq in E1. apply Qeq_bool_neq in E2.
      simpl. field; try split; intros H; apply E1; lra.
  - intros p x y -> -> Hx Hy Hz.
    apply Qle_bool_iff in Hx, Hy. rewrite Hx, Hy. simpl.
    destruct (Qeq_bool (x + y) 0) eqn:E1;
      [apply Qeq_bool_iff in E1; contradiction |].
    destruct (Qeq_bool (y + x) 0) eqn:E2;
      [apply Qeq_bool_iff in E2; exfalso; apply Hz; lra |].
    eexists _, _. split; [reflexivity |]. split; [reflexivity |].
    split; [reflexivity |]. field; try split; intros H; apply Hz; lra.
  - intros p x y -> -> Hz.
    assert (E1 : Qeq_bool (x + y) 0 = true) by by apply Qeq_bool_iff.
    assert (E2 : Qeq_bool (y + x) 0 = true) by (apply Qeq_bool_iff; lra).
    rewrite E1, E2. unfold EE.zero_sum_sample.
    by destruct (Qle_bool 0 x), (Qle_bool 0 y).
Qed.

(** The vegetation pair of [ramp_mix] in both orders. *)
Lemma normalizedDifference_antisymmetric_witness :
  ∃ ab ba,
    EE.normalizedDifference samples.ramp_mix "B8" "B4" = Some ab ∧
    EE.normalizedDifference samples.ramp_mix "B4" "B8" = Some ba ∧
    (∀ p, EE.sample_eq (ab p) (Qopp <$> ba p)) ∧
    (∀ p x y, EE.band_of_list [Some 0; Some 3; Some (-1); Some 1] p = Some x →
              EE.band_of_list [Some 0; Some 1; Some 1] p = Some y →
              0 <= x → 0 <= y → ¬ x + y == 0 →
              ∃ v w, ab p = Some v ∧ ba p = Some w ∧
                     v == (x - y) / (x + y) ∧ v == - w) ∧
    (∀ p x y, EE.band_of_list [Some 0; Some 3; Some (-1); Some 1] p = Some x →
              EE.band_of_list [Some 0; Some 1; Some 1] p = Some y →
              x + y == 0 → ab p = None ∧ ba p = None).
Proof.
  apply (normalizedDifference_antisymmetric samples.ramp_mix "B8" "B4");
    reflexivity.
Defined.

(** *** Epoch composites *)

(** C1 fails on the code: [post_flood] is filtered from the start of the
    pre-event window, so on [catalogue] the two acquisitions of September
    1 and 10, before the post-event window opens, enter the post-event
    composite: its B8 median is 100, while the median of the three
    post-event acquisitions is 200. *)
Lemma post_flood_median_mixes_epochs :
  acquisition_dates (post_flood samples.catalogue [0%nat])
    = Some [EE.date 2024 9 1; EE.date 2024 9 10; EE.date 2024 10 1;
            EE.date 2024 10 10; EE.date 2024 11 1] ∧
  (EE.date 2024 9 1 < POST_FLOOD_RANGE.1)%Z ∧
  sample_at (post_flood_median samples.catalogue [0%nat]) "B8" 0%nat
    = Some 100 ∧
  sample_at (post_epoch_composite samples.catalogue [0%nat]) "B8" 0%nat
    = Some 200.
Proof. repeat split; vm_compute; reflexivity. Qed.

(** ** Further properties of the notebook *)

(** *** Cloud mask *)

Lemma b2q_nonzero (b : bool) : negb (Qeq_bool (EE.b2q b) 0) = b.
Proof. by destruct b. Qed.

Lemma And_b2q (a b : EE.band) p (x y : bool) :
  a p = Some (EE.b2q x) → b p = Some (EE.b2q y) →
  EE.And a b p = Some (EE.b2q (x && y)).
Proof.
  intros Ha Hb. unfold EE.And, EE.lift2. rewrite Ha, Hb.
  by rewrite !b2q_nonzero.
Qed.

Lemma And_masked (a b : EE.band) p : a p = None → EE.And a b p = None.
Proof. intros Ha. unfold EE.And, EE.lift2. by rewrite Ha. Qed.

Lemma neq_sample (a : EE.band) t p c :
  a p = Some c → EE.neq a t p = Some (EE.b2q (negb (Qeq_bool c t))).
Proof. intros Ha. unfold EE.neq. by rewrite Ha. Qed.

Lemma cloud_free_sample (scl : EE.band) p :
  cloud_free_of scl p = (λ c, EE.b2q (clear_scl c)) <$> scl p.
Proof.
  unfold cloud_free_of, clear_scl.
  destruct (scl p) as [c |] eqn:E.
  - repeat apply And_b2q; by apply neq_sample.
  - repeat apply And_masked. unfold EE.neq. by rewrite E.
Qed.

Lemma updateMask_cloud_free (b scl : EE.band) p :
  EE.updateMask b (cloud_free_of scl) p =
    match scl p with
    | Some c => if clear_scl c then b p else None
    | None => None
    end.
Proof.
  unfold EE.updateMask. rewrite cloud_free_sample.
  destruct (b p), (scl p) as [c |]; simpl; try done;
    by destruct (clear_scl c).
Qed.

Lemma mask_sentinel2_clouds_unfold image :
  mask_sentinel2_clouds image =
    scl ← EE.select image "SCL";
    Some (EE.map_bands (λ b, EE.updateMask b (cloud_free_of scl)) image).
Proof. reflexivity. Qed.

Lemma clear_scl_true c :
  clear_scl c = true ↔
  ¬ c == 3 ∧ ¬ c == 8 ∧ ¬ c == 9 ∧ ¬ c == 10 ∧ ¬ c == 11.
Proof.
  unfold clear_scl. rewrite !andb_true_iff, !negb_true_iff.
  rewrite <- !not_true_iff_false, !Qeq_bool_iff. tauto.
Qed.

Lemma lookup_map_bands f (img : EE.image) i :
  EE.map_bands f img !! i = prod_map id f <$> img !! i.
Proof. unfold EE.map_bands. apply list_lookup_fmap. Qed.

(** X1.  The cloud mask fails exactly when the image has no [SCL] band;
    when it succeeds the result has the band names of the input, in the
    same order. *)
Theorem mask_sentinel2_clouds_bands image :
  (mask_sentinel2_clouds image = None ↔ EE.select image "SCL" = None) ∧
  ∀ out, mask_sentinel2_clouds image = Some out →
         EE.bandNames out = EE.bandNames image.
Proof.
  rewrite mask_sentinel2_clouds_unfold.
  destruct (EE.select image "SCL") as [scl |]; simpl.
  - split; [split; discriminate |].
    intros out [= <-]. apply bandNames_map_bands.
  - split; [done | discriminate].
Qed.

(** X2.  In the masked image every band is masked at a pixel whose
    [SCL] sample is masked or is one of the classes 3, 8, 9, 10, 11, and
    keeps the sample of the input at every other pixel. *)
Theorem mask_sentinel2_clouds_pixels image scl out i n (b : EE.band) :
  EE.select image "SCL" = Some scl →
  mask_sentinel2_clouds image = Some out →
  image !! i = Some (n, b) →
  ∃ b', out !! i = Some (n, b') ∧
    (∀ p, scl p = None → b' p = None) ∧
    (∀ p c, scl p = Some c →
            c == 3 ∨ c == 8 ∨ c == 9 ∨ c == 10 ∨ c == 11 → b' p = None) ∧
    (∀ p c, scl p = Some c →
            ¬ c == 3 → ¬ c == 8 → ¬ c == 9 → ¬ c == 10 → ¬ c == 11 →
            b' p = b p).
Proof.
  intros Hscl Hout Hi. rewrite mask_sentinel2_clouds_unfold, Hscl in Hout.
  injection Hout as <-. eexists. split.
  { rewrite lookup_map_bands, Hi. reflexivity. }
  simpl. split; [| split].
  - intros p Hp. by rewrite updateMask_cloud_free, Hp.
  - intros p c Hp Hc. rewrite updateMask_cloud_free, Hp.
    destruct (clear_scl c) eqn:E; [| done].
    apply clear_scl_true in E. tauto.
  - intros p c Hp H3 H8 H9 H10 H11. rewrite updateMask_cloud_free, Hp.
    destruct (clear_scl c) eqn:E; [done |].
    apply not_true_iff_false in E. rewrite clear_scl_true in E. tauto.
Qed.

Lemma select_map_bands f (img : EE.image) name :
  EE.select (EE.map_bands f img) name = f <$> EE.select img name.
Proof.
  unfold EE.map_bands. induction img as [| [n b] img IH]; [done |].
  cbn. destruct (decide (n = name)); [done | exact IH].
Qed.

Lemma map_bands_compose f g (img : EE.image) :
  EE.map_bands f (EE.map_bands g img) = EE.map_bands (f ∘ g) img.
Proof.
  unfold EE.map_bands. rewrite <- list_fmap_compose.
  apply list_fmap_ext. by intros i [n b] _.
Qed.

(** X3.  Masking a masked image again changes nothing: the second
    pass succeeds and returns the same bands with the same samples. *)
Theorem mask_sentinel2_clouds_idempotent image once :
  mask_sentinel2_clouds image = Some once →
  ∃ twice, mask_sentinel2_clouds once = Some twice ∧
           EE.bandNames twice = EE.bandNames once ∧
           ∀ i n (b : EE.band), twice !! i = Some (n, b) →
                    ∃ b', once !! i = Some (n, b') ∧ ∀ p, b p = b' p.
Proof.
  rewrite mask_sentinel2_clouds_unfold.
  destruct (EE.select image "SCL") as [scl |] eqn:Hscl; [| discriminate].
  intros [= <-]. rewrite mask_sentinel2_clouds_unfold, select_map_bands, Hscl.
  simpl. eexists. split; [reflexivity |].
  split; [apply bandNames_map_bands |].
  intros i n b. rewrite !lookup_map_bands.
  destruct (image !! i) as [[n0 b0] |]; [| discriminate]. simpl.
  intros [= <- <-]. eexists. split; [reflexivity |].
  intros p. rewrite !updateMask_cloud_free.
  destruct (scl p) as [c |]; [| done].
  destruct (clear_scl c) eqn:E; [by rewrite E | done].
Qed.

(** *** Radiometric matcher, continued *)






Lemma valid_values_elem (b : EE.band) (g : EE.geometry) p v :
  p ∈ g → b p = Some v → v ∈ EE.valid_values b g.
Proof. intros Hp Hv. apply list_elem_of_omap. by exists p. Qed.

Lemma band_stats_some img name g :
  (∃ b p, EE.select img name = Some b ∧ p ∈ g ∧ is_Some (b p)) ↔
  is_Some (band_min img name g) ∧ is_Some (band_max img name g).
Proof.
  unfold band_min, band_max.
  destruct (EE.select img name) as [b |]; simpl.
  - split.
    + intros (b' & p & [= <-] & Hp & [v Hv]).
      pose proof (valid_values_elem b g p v Hp Hv) as Hin.
      destruct (EE.valid_values b g); [by apply elem_of_nil in Hin |].
      by split; eexists.
    + intros [[m Hm] _]. unfold EE.valid_values in *.
      destruct (omap b g) as [| v l] eqn:E; [discriminate |].
      assert (v ∈ omap b g) as Hv by (rewrite E; left).
      apply list_elem_of_omap in Hv as (p & Hp & Hbp).
      exists b, p. by rewrite Hbp.
  - split; [by intros (? & ? & ? & _) | by intros [[? ?] _]].
Qed.

(** X4.  The matcher evaluates exactly when each of the two images
    has the named band with at least one valid pixel inside the region. *)
Theorem histogram_match_simple_succeeds pre post b region scale :
  is_Some (histogram_match_simple pre post b region scale) ↔
  (∃ src p, EE.select pre b = Some src ∧ p ∈ region ∧ is_Some (src p)) ∧
  (∃ ref p, EE.select post b = Some ref ∧ p ∈ region ∧ is_Some (ref p)).
Proof.
  rewrite !band_stats_some.
  unfold histogram_match_simple, normalize.
  rewrite !reduceRegion_minMax_min, !reduceRegion_minMax_max.
  unfold band_min, band_max.
  destruct (EE.select pre b) as [src |]; simpl.
  2:{ split; [by intros [? ?] | by intros [[[? ?] _] _]]. }
  destruct (EE.Qlist_min (EE.valid_values src region)); simpl.
  2:{ split; [by intros [? ?] | by intros [[[? ?] _] _]]. }
  destruct (EE.Qlist_max (EE.valid_values src region)); simpl.
  2:{ split; [by intros [? ?] | by intros [[_ [? ?]] _]]. }
  destruct (EE.select post b) as [ref |]; simpl.
  2:{ split; [by intros [? ?] | by intros [_ [[? ?] _]]]. }
  destruct (EE.Qlist_min (EE.valid_values ref region)); simpl.
  2:{ split; [by intros [? ?] | by intros [_ [[? ?] _]]]. }
  destruct (EE.Qlist_max (EE.valid_values ref region)); simpl.
  2:{ split; [by intros [? ?] | by intros [_ [_ [? ?]]]]. }
  split; [intros _ | intros _; by eexists].
  repeat split; by eexists.
Qed.

(** X5.  Matching an image against itself gives the band back: with
    a non-degenerate range the matched band equals the source band at
    every pixel. *)
Theorem histogram_match_simple_self img b region scale src smin smax :
  EE.select img b = Some src →
  band_min img b region = Some smin → band_max img b region = Some smax →
  ¬ smax == smin →
  ∃ matched,
    histogram_match_simple img img b region scale
      = Some [(b +:+ "_matched", matched)] ∧
    ∀ p, EE.sample_eq (matched p) (src p).
Proof.
  intros Hsrc Hmin Hmax Hne.
  eexists. split; [by eapply histogram_match_simple_unfold |].
  intros p. unfold EE.add, EE.multiply, EE.divide, EE.subtract, EE.lift2,
    EE.constant.
  destruct (src p) as [v |]; simpl; [| exact I].
  rewrite ee_div_nonzero by (intros H; apply Hne; lra).
  field. intros H. apply Hne. lra.
Qed.


(** *** Fusion sharpener, continued *)

Lemma select_is_Some (img : EE.image) name :
  is_Some (EE.select img name) ↔ name ∈ EE.bandNames img.
Proof.
  unfold EE.bandNames. induction img as [| [n b] img IH]; simpl.
  - split; [by intros [? ?] | by intros ?%elem_of_nil].
  - rewrite elem_of_cons. destruct (decide (n = name)) as [-> | Hne].
    + split; [by left | by eexists].
    + rewrite IH. split; [by right | by intros [-> | ?]].
Qed.

Lemma select_elem (img : EE.image) name b :
  EE.select img name = Some b → (name, b) ∈ img.
Proof.
  induction img as [| [n b'] img IH]; simpl; [discriminate |].
  destruct (decide (n = name)) as [-> | Hne].
  - intros [= <-]. left.
  - intros H. right. by apply IH.
Qed.

Lemma pansharpen_simple_mean_Some ms pan bands out :
  pansharpen_simple_mean ms pan bands = Some out ↔
  bands ≠ [] ∧
  ∃ k, Forall2 (λ n o, ∃ b, EE.select ms n = Some b ∧
                        o = EE.add b (EE.subtract pan (EE.reduce_mean ms)))
               bands k ∧
       out = zip bands k.
Proof.
  unfold pansharpen_simple_mean.
  destruct (mapM _ bands) as [k |] eqn:E; simpl.
  - apply mapM_Some in E.
    assert (Hk : Forall2 (λ n o, ∃ b, EE.select ms n = Some b ∧
                   o = EE.add b (EE.subtract pan (EE.reduce_mean ms)))
                   bands k).
    { eapply Forall2_impl; [exact E |]. intros n o H. simpl in H.
      destruct (EE.select ms n) as [b |]; [| discriminate].
      injection H as <-. by exists b. }
    assert (Huniq : ∀ k', Forall2 (λ n o, ∃ b, EE.select ms n = Some b ∧
                   o = EE.add b (EE.subtract pan (EE.reduce_mean ms)))
                   bands k' → k' = k).
    { clear Hk. intros k' Hk'. revert k' Hk'.
      induction E as [| n o bands k H E IH]; intros k' Hk'.
      - by apply Forall2_nil_inv_l in Hk' as ->.
      - apply Forall2_cons_inv_l in Hk'
          as (o' & k'' & (b & Hb & ->) & Hk'' & ->).
        simpl in H. rewrite Hb in H. injection H as <-. f_equal.
        by apply IH. }
    destruct k as [| o k]; simpl.
    + apply Forall2_nil_inv_r in Hk as ->.
      split; [discriminate | by intros [? _]].
    + split.
      * intros [= <-]. split; [intros ->; inversion Hk |]. by eexists.
      * intros (_ & k' & Hk' & ->). by rewrite (Huniq _ Hk').
  - split; [discriminate |]. intros (_ & k & Hk & _). exfalso.
    assert (mapM (λ band, b ← EE.select ms band;
                          Some (EE.add b (EE.subtract pan (EE.reduce_mean ms))))
                 bands = Some k) as Hm; [| congruence].
    apply mapM_Some. eapply Forall2_impl; [exact Hk |].
    intros n o (b & Hb & ->). simpl. by rewrite Hb.
Qed.



Lemma pansharpen_simple_mean_lookup ms pan bands out i n (o : EE.band) :
  pansharpen_simple_mean ms pan bands = Some out →
  out !! i = Some (n, o) →
  bands !! i = Some n ∧
  ∃ b, EE.select ms n = Some b ∧
       o = EE.add b (EE.subtract pan (EE.reduce_mean ms)).
Proof.
  intros (_ & k & Hk & ->)%pansharpen_simple_mean_Some Hi.
  unfold zip in Hi. apply lookup_zip_with_Some in Hi as (n' & o' & [= <- <-] & Hn & Ho).
  split; [done |].
  destruct (Forall2_lookup_l _ _ _ _ _ Hk Hn) as (o' & Ho' & Hb).
  by simplify_eq.
Qed.

(** X8.  A sharpened band is valid exactly at the pixels where its
    input band and the reference band are both valid: sharpening never
    unmasks a pixel. *)
Theorem pansharpen_simple_mean_valid ms pan bands out i n (o : EE.band) :
  pansharpen_simple_mean ms pan bands = Some out →
  out !! i = Some (n, o) →
  ∃ b, EE.select ms n = Some b ∧
       ∀ p, is_Some (o p) ↔ is_Some (b p) ∧ is_Some (pan p).
Proof.
  intros Hout Hi.
  destruct (pansharpen_simple_mean_lookup _ _ _ _ _ _ _ Hout Hi)
    as (_ & b & Hb & ->).
  exists b. split; [done |]. intros p.
  unfold EE.add, EE.subtract, EE.lift2.
  destruct (b p) as [v |] eqn:Hv.
  - destruct (reduce_mean_valid ms n b p v (select_elem _ _ _ Hb) Hv)
      as [m Hm].
    rewrite Hm. destruct (pan p); simpl.
    + split; [intros _; split; by eexists | by eexists].
    + split; [by intros [? ?] | by intros [_ [? ?]]].
  - split; [by intros [? ?] | by intros [[? ?] _]].
Qed.


(** X10.  When the reference equals the per-pixel mean of all
    bands of the input, every sharpened band equals the input band of its
    name, for any selection of band names (repeated or partial). *)
Theorem pansharpen_simple_mean_selected_identity
    ms pan bands out i n (o : EE.band) :
  EE.band_eq pan (EE.reduce_mean ms) →
  pansharpen_simple_mean ms pan bands = Some out →
  out !! i = Some (n, o) →
  ∃ b, EE.select ms n = Some b ∧ EE.band_eq o b.
Proof.
  intros Hpan Hout Hi.
  destruct (pansharpen_simple_mean_lookup _ _ _ _ _ _ _ Hout Hi)
    as (_ & b & Hb & ->).
  exists b. split; [done |]. intros p. specialize (Hpan p).
  unfold EE.add, EE.subtract, EE.lift2.
  destruct (b p) as [v |] eqn:Hv; [| exact I].
  destruct (reduce_mean_valid ms n b p v (select_elem _ _ _ Hb) Hv) as [m Hm].
  rewrite Hm in *. destruct (pan p) as [r |]; simpl in *; [lra | done].
Qed.

(** *** Index engine, continued *)

Lemma normalizedDifference_Some img A B :
  EE.normalizedDifference img A B =
    a ← EE.select img A; b ← EE.select img B;
    Some (λ p, match a p, b p with
               | Some x, Some y =>
                   if Qle_bool 0 x && Qle_bool 0 y
                   then if Qeq_bool (x + y) 0
                        then EE.zero_sum_sample
                        else Some ((x - y) / (x + y))
                   else None
               | _, _ => None
               end).
Proof. reflexivity. Qed.

Lemma nd_bounds x y :
  0 <= x → 0 <= y → ¬ x + y == 0 →
  -1 <= (x - y) / (x + y) ∧ (x - y) / (x + y) <= 1 ∧
  (0 < (x - y) / (x + y) ↔ y < x).
Proof.
  intros Hx Hy E.
  assert (Hpos : 0 < x + y).
  { destruct (Qlt_le_dec 0 (x + y)); [done |]. exfalso. apply E. lra. }
  split; [| split; [| split]].
  - apply Qle_shift_div_l; [done | lra].
  - apply Qle_shift_div_r; [done | lra].
  - intros H. destruct (Qlt_le_dec y x); [done |]. exfalso.
    assert ((x - y) / (x + y) <= 0); [| lra].
    apply Qle_shift_div_r; [done | lra].
  - intros H. apply Qlt_shift_div_l; [done | lra].
Qed.

(** A sample of a normalized difference: valid only on valid,
    non-negative inputs, valid with the quotient where moreover their sum
    is not zero, and then in [-1, 1] with the sign of the difference. *)
Lemma normalizedDifference_sample img A B (a b f : EE.band) p :
  EE.select img A = Some a → EE.select img B = Some b →
  EE.normalizedDifference img A B = Some f →
  (∀ v, f p = Some v →
        ∃ x y, a p = Some x ∧ b p = Some y ∧ 0 <= x ∧ 0 <= y) ∧
  (∀ x y, a p = Some x → b p = Some y → 0 <= x → 0 <= y → ¬ x + y == 0 →
          ∃ v, f p = Some v ∧ v == (x - y) / (x + y)) ∧
  ∀ v, f p = Some v →
       -1 <= v ∧ v <= 1 ∧
       ∀ x y, a p = Some x → b p = Some y → (0 < v ↔ y < x).
Proof.
  intros Ha Hb. rewrite normalizedDifference_Some, Ha, Hb. simpl.
  intros [= <-].
  destruct (a p) as [x |], (b p) as [y |]; simpl.
  2-4: split; [discriminate | split; discriminate].
  destruct (Qle_bool 0 x) eqn:Hx, (Qle_bool 0 y) eqn:Hy; simpl.
  - apply Qle_bool_iff in Hx, Hy.
    destruct (Qeq_bool (x + y) 0) eqn:E.
    + apply Qeq_bool_iff in E. unfold EE.zero_sum_sample.
      split; [discriminate |]. split; [| discriminate].
      intros x' y' [= <-] [= <-] _ _ H. contradiction.
    + apply Qeq_bool_neq in E. split; [| split].
      * intros v _. by exists x, y.
      * intros x' y' [= <-] [= <-] _ _ _. by eexists.
      * intros v [= <-].
        destruct (nd_bounds x y Hx Hy E) as (H1 & H2 & H3).
        split; [done |]. split; [done |].
        by intros x' y' [= <-] [= <-].
  - apply not_true_iff_false in Hy. rewrite Qle_bool_iff in Hy.
    split; [discriminate |]. split; [| discriminate].
    intros x' y' [= <-] [= <-] _ H. contradiction.
  - apply not_true_iff_false in Hx. rewrite Qle_bool_iff in Hx.
    split; [discriminate |]. split; [| discriminate].
    intros x' y' [= <-] [= <-] H. contradiction.
  - apply not_true_iff_false in Hx. rewrite Qle_bool_iff in Hx.
    split; [discriminate |]. split; [| discriminate].
    intros x' y' [= <-] [= <-] H. contradiction.
Qed.

Lemma added_name_fresh used n : n ∉ used → EE.added_name used n = n.
Proof. intros H. unfold EE.added_name. by rewrite decide_False. Qed.

Lemma free_suffix_shape used n k fuel :
  ∃ j : nat, EE.free_suffix used n k fuel = n +:+ "_" +:+ pretty j.
Proof.
  revert k. induction fuel as [| fuel IH]; intros k; simpl; [by eexists |].
  destruct (decide _); [apply IH | by eexists].
Qed.

Lemma suffixed_name_neq (n n' s : string) :
  String.length n = String.length n' → n +:+ "_" +:+ s ≠ n'.
Proof.
  intros Hlen H. apply (f_equal String.length) in H.
  rewrite !string_app_length in H. simpl in H. lia.
Qed.

(** A band added under the name [n], renamed or not, does not take
    another name of the same length. *)
Lemma added_name_other used (n n' : string) :
  String.length n = String.length n' → n ≠ n' → EE.added_name used n ≠ n'.
Proof.
  intros Hlen Hne. unfold EE.added_name. destruct (decide _); [| done].
  destruct (free_suffix_shape used n 1 (length used)) as [j ->].
  by apply suffixed_name_neq.
Qed.

Lemma addBands_three (img : EE.image) n1 n2 n3 (b1 b2 b3 : EE.band) :
  let m1 := EE.added_name (EE.bandNames img) n1 in
  let m2 := EE.added_name (EE.bandNames img ++ [m1]) n2 in
  let m3 := EE.added_name (EE.bandNames img ++ [m1; m2]) n3 in
  EE.addBands img [(n1, b1); (n2, b2); (n3, b3)]
    = img ++ [(m1, b1); (m2, b2); (m3, b3)].
Proof.
  unfold EE.addBands, EE.bandNames. simpl.
  rewrite !fmap_app, <- !app_assoc. simpl. reflexivity.
Qed.

(** The names under which [calculate_indices] appends its three bands. *)
Lemma index_names_fresh (image : EE.image) :
  let m1 := EE.added_name (EE.bandNames image) "NDVI" in
  let m2 := EE.added_name (EE.bandNames image ++ [m1]) "NDWI" in
  let m3 := EE.added_name (EE.bandNames image ++ [m1; m2]) "NDBI" in
  ("NDVI" ∉ EE.bandNames image → m1 = "NDVI") ∧
  ("NDWI" ∉ EE.bandNames image → m2 = "NDWI") ∧
  ("NDBI" ∉ EE.bandNames image → m3 = "NDBI") ∧
  m1 ≠ "NDWI" ∧ m1 ≠ "NDBI" ∧ m2 ≠ "NDBI".
Proof.
  intros m1 m2 m3.
  assert (H12 : m1 ≠ "NDWI") by by apply added_name_other.
  assert (H13 : m1 ≠ "NDBI") by by apply added_name_other.
  assert (H23 : m2 ≠ "NDBI") by by apply added_name_other.
  repeat split; try done.
  - apply added_name_fresh.
  - intros H. apply added_name_fresh.
    rewrite elem_of_app, list_elem_of_singleton. by intros [? | ?].
  - intros H. apply added_name_fresh.
    rewrite elem_of_app, !elem_of_cons, elem_of_nil.
    intros [? | [? | [? | []]]]; done.
Qed.

Lemma calculate_indices_Some image out :
  calculate_indices image = Some out ↔
  ∃ ndvi ndwi ndbi,
    EE.normalizedDifference image "B8" "B4" = Some ndvi ∧
    EE.normalizedDifference image "B3" "B8" = Some ndwi ∧
    EE.normalizedDifference image "B11" "B8" = Some ndbi ∧
    let m1 := EE.added_name (EE.bandNames image) "NDVI" in
    let m2 := EE.added_name (EE.bandNames image ++ [m1]) "NDWI" in
    let m3 := EE.added_name (EE.bandNames image ++ [m1; m2]) "NDBI" in
    out = image ++ [(m1, ndvi); (m2, ndwi); (m3, ndbi)].
Proof.
  unfold calculate_indices.
  destruct (EE.normalizedDifference image "B8" "B4") as [ndvi |]; simpl.
  2:{ split; [discriminate | by intros (? & ? & ? & ? & _)]. }
  destruct (EE.normalizedDifference image "B3" "B8") as [ndwi |]; simpl.
  2:{ split; [discriminate | by intros (? & ? & ? & _ & ? & _)]. }
  destruct (EE.normalizedDifference image "B11" "B8") as [ndbi |]; simpl.
  2:{ split; [discriminate | by intros (? & ? & ? & _ & _ & ? & _)]. }
  rewrite addBands_three. split.
  - intros [= <-]. by exists ndvi, ndwi, ndbi.
  - intros (? & ? & ? & [= <-] & [= <-] & [= <-] & ->). done.
Qed.

Lemma normalizedDifference_is_Some img A B :
  is_Some (EE.normalizedDifference img A B) ↔
  A ∈ EE.bandNames img ∧ B ∈ EE.bandNames img.
Proof.
  rewrite <- !select_is_Some, normalizedDifference_Some.
  destruct (EE.select img A), (EE.select img B); simpl;
    split; try (intros [? ?]; done); try (intros [[? ?] [? ?]]; done).
Qed.

(** X11.  [calculate_indices] evaluates exactly when the image has
    the bands B8, B4, B3 and B11; the result keeps the input bands in front
    and has three bands more. *)
Theorem calculate_indices_succeeds image :
  (is_Some (calculate_indices image) ↔
   "B8" ∈ EE.bandNames image ∧ "B4" ∈ EE.bandNames image ∧
   "B3" ∈ EE.bandNames image ∧ "B11" ∈ EE.bandNames image) ∧
  ∀ out, calculate_indices image = Some out →
         take (length image) out = image ∧
         length out = (length image + 3)%nat.
Proof.
  split.
  - assert (is_Some (calculate_indices image) ↔
            is_Some (EE.normalizedDifference image "B8" "B4") ∧
            is_Some (EE.normalizedDifference image "B3" "B8") ∧
            is_Some (EE.normalizedDifference image "B11" "B8")) as ->.
    { unfold calculate_indices.
      destruct (EE.normalizedDifference image "B8" "B4"),
               (EE.normalizedDifference image "B3" "B8"),
               (EE.normalizedDifference image "B11" "B8"); simpl;
        split; try (intros [? ?]; done);
        try (intros ([? ?] & [? ?] & [? ?]); done). }
    rewrite !normalizedDifference_is_Some. tauto.
  - intros out (ndvi & ndwi & ndbi & _ & _ & _ & ->)%calculate_indices_Some.
    split; [by rewrite take_app_length | by rewrite length_app].
Qed.

Lemma calculate_indices_pairs image out k name A B :
  calculate_indices image = Some out →
  (k, name, A, B) ∈ [(0%nat, "NDVI", "B8", "B4"); (1%nat, "NDWI", "B3", "B8");
                     (2%nat, "NDBI", "B11", "B8")] →
  ∃ a b name' f,
    EE.select image A = Some a ∧ EE.select image B = Some b ∧
    EE.normalizedDifference image A B = Some f ∧
    out !! (length image + k)%nat = Some (name', f) ∧
    (name ∉ EE.bandNames image → name' = name).
Proof.
  intros (ndvi & ndwi & ndbi & H1 & H2 & H3 & ->)%calculate_indices_Some Hk.
  destruct (index_names_fresh image) as (F1 & F2 & F3 & _).
  assert (∀ f, EE.normalizedDifference image A B = Some f →
            ∃ a b, EE.select image A = Some a ∧ EE.select image B = Some b)
    as Hsel.
  { intros f Hf. rewrite normalizedDifference_Some in Hf.
    destruct (EE.select image A), (EE.select image B); try discriminate.
    by eauto. }
  unfold EE.image in *. rewrite lookup_app_r by lia.
  replace (length image + k - length image)%nat with k by lia.
  repeat (apply elem_of_cons in Hk as [[= -> -> -> ->] | Hk]);
    [| | | by apply elem_of_nil in Hk].
  - destruct (Hsel _ H1) as (a & b & Ha & Hb). by eexists a, b, _, ndvi.
  - destruct (Hsel _ H2) as (a & b & Ha & Hb). by eexists a, b, _, ndwi.
  - destruct (Hsel _ H3) as (a & b & Ha & Hb). by eexists a, b, _, ndbi.
Qed.

(** X12.  Every valid sample of the three index bands that
    [calculate_indices] appends lies in [-1, 1]. *)
Theorem calculate_indices_bounded image out i n (f : EE.band) p v :
  calculate_indices image = Some out →
  (length image ≤ i)%nat → out !! i = Some (n, f) → f p = Some v →
  -1 <= v ∧ v <= 1.
Proof.
  intros Hout Hi Hf Hv.
  assert (i < length image + 3)%nat as Hlt.
  { apply lookup_lt_Some in Hf.
    apply calculate_indices_Some in Hout as (? & ? & ? & _ & _ & _ & ->).
    rewrite length_app in Hf. simpl in Hf. lia. }
  assert (∃ k name A B,
            (k, name, A, B) ∈ [(0%nat, "NDVI", "B8", "B4");
                               (1%nat, "NDWI", "B3", "B8");
                               (2%nat, "NDBI", "B11", "B8")] ∧
            i = (length image + k)%nat) as (k & name & A & B & Hk & ->).
  { destruct (decide (i = length image)) as [-> | ?];
      [exists 0%nat, "NDVI", "B8", "B4"; split; [by left | lia] |].
    destruct (decide (i = S (length image))) as [-> | ?];
      [exists 1%nat, "NDWI", "B3", "B8"; split; [by right; left | lia] |].
    exists 2%nat, "NDBI", "B11", "B8".
    split; [by right; right; left | lia]. }
  destruct (calculate_indices_pairs _ _ _ _ _ _ Hout Hk)
    as (a & b & n' & f' & Ha & Hb & Hnd & Hf' & _).
  rewrite Hf in Hf'. injection Hf' as -> ->.
  destruct (normalizedDifference_sample _ _ _ _ _ _ p Ha Hb Hnd)
    as (_ & _ & H).
  destruct (H v Hv) as (? & ? & _). done.
Qed.

(** X13.  Each appended index (NDVI of B8 and B4, NDWI of B3 and B8,
    NDBI of B11 and B8, in this order, and under that name when the input
    has no band of the name) is valid only where both of its bands are
    valid and non-negative; where moreover their sum is not zero it is
    valid, with the value (first − second) / (first + second); and a
    valid index is positive exactly where the first band exceeds the
    second. *)
Theorem calculate_indices_sign image out k name A B :
  calculate_indices image = Some out →
  (k, name, A, B) ∈ [(0%nat, "NDVI", "B8", "B4"); (1%nat, "NDWI", "B3", "B8");
                     (2%nat, "NDBI", "B11", "B8")] →
  ∃ a b name' f,
    EE.select image A = Some a ∧ EE.select image B = Some b ∧
    out !! (length image + k)%nat = Some (name', f) ∧
    (name ∉ EE.bandNames image → name' = name) ∧
    ∀ p,
      (∀ v, f p = Some v →
            ∃ x y, a p = Some x ∧ b p = Some y ∧ 0 <= x ∧ 0 <= y ∧
                   (0 < v ↔ y < x)) ∧
      (∀ x y, a p = Some x → b p = Some y → 0 <= x → 0 <= y →
              ¬ x + y == 0 →
              ∃ v, f p = Some v ∧ v == (x - y) / (x + y)).
Proof.
  intros Hout Hk.
  destruct (calculate_indices_pairs _ _ _ _ _ _ Hout Hk)
    as (a & b & name' & f & Ha & Hb & Hnd & Hf & Hname).
  exists a, b, name', f. repeat (split; [done |]). intros p.
  destruct (normalizedDifference_sample _ _ _ _ _ _ p Ha Hb Hnd)
    as (H1 & H2 & H3).
  split; [| exact H2]. intros v Hv.
  destruct (H1 v Hv) as (x & y & Hx & Hy & Hx0 & Hy0).
  exists x, y. repeat (split; [done |]).
  destruct (H3 v Hv) as (_ & _ & H). by apply H.
Qed.

Lemma select_app_l (img extra : EE.image) name :
  name ∈ EE.bandNames img →
  EE.select (img ++ extra) name = EE.select img name.
Proof.
  unfold EE.bandNames. induction img as [| [n b] img IH]; simpl.
  - by intros ?%elem_of_nil.
  - intros Hin. destruct (decide (n = name)); [done |].
    apply IH. by apply elem_of_cons in Hin as [-> | ?].
Qed.

Lemma select_app_r (img extra : EE.image) name :
  name ∉ EE.bandNames img →
  EE.select (img ++ extra) name = EE.select extra name.
Proof.
  unfold EE.bandNames. induction img as [| [n b] img IH]; simpl; [done |].
  intros Hin. rewrite not_elem_of_cons in Hin. destruct Hin as [Hne Hin].
  rewrite decide_False by done. by apply IH.
Qed.

Lemma calculate_indices_select_by_name image out :
  calculate_indices image = Some out →
  (∀ n, n ∈ EE.bandNames image → EE.select out n = EE.select image n) ∧
  ("NDVI" ∉ EE.bandNames image →
   EE.select out "NDVI" = EE.normalizedDifference image "B8" "B4") ∧
  ("NDWI" ∉ EE.bandNames image →
   EE.select out "NDWI" = EE.normalizedDifference image "B3" "B8") ∧
  ("NDBI" ∉ EE.bandNames image →
   EE.select out "NDBI" = EE.normalizedDifference image "B11" "B8").
Proof.
  intros (ndvi & ndwi & ndbi & H1 & H2 & H3 & ->)%calculate_indices_Some.
  destruct (index_names_fresh image) as (F1 & F2 & F3 & N12 & N13 & N23).
  split; [intros n Hn; by apply select_app_l |].
  repeat split; intros Hn; rewrite select_app_r by done; simpl.
  - rewrite (F1 Hn), decide_True by done. congruence.
  - rewrite (F2 Hn), decide_False, decide_True by done. congruence.
  - rewrite (F3 Hn), !decide_False, decide_True by done. congruence.
Qed.

(** X14.  Selecting by name from the result of [calculate_indices]
    gives every input band unchanged and, for an index name the input
    does not already use, the normalized difference of its band pair. *)
Theorem calculate_indices_select image out :
  calculate_indices image = Some out →
  (∀ n, n ∈ EE.bandNames image → EE.select out n = EE.select image n) ∧
  ("NDVI" ∉ EE.bandNames image →
   EE.select out "NDVI" = EE.normalizedDifference image "B8" "B4") ∧
  ("NDWI" ∉ EE.bandNames image →
   EE.select out "NDWI" = EE.normalizedDifference image "B3" "B8") ∧
  ("NDBI" ∉ EE.bandNames image →
   EE.select out "NDBI" = EE.normalizedDifference image "B11" "B8").
Proof.
  exact (calculate_indices_select_by_name image out).
Qed.

(** *** Area aggregator, continued *)


Lemma Qsum_fmap_le {A} (f g : A → Q) (l : list A) :
  (∀ x, x ∈ l → f x <= g x) → EE.Qsum (f <$> l) <= EE.Qsum (g <$> l).
Proof.
  induction l as [| x l IH]; intros H.
  - apply Qle_refl.
  - rewrite !fmap_cons, !Qsum_cons.
    apply Qplus_le_compat; [apply H; left |].
    apply IH. intros y Hy. apply H. by right.
Qed.

Lemma Qsum_fmap_eq {A} (f g : A → Q) (l : list A) :
  (∀ x, x ∈ l → f x == g x) → EE.Qsum (f <$> l) == EE.Qsum (g <$> l).
Proof.
  intros H. apply Qle_antisym; apply Qsum_fmap_le; intros x Hx;
    rewrite (H x Hx); apply Qle_refl.
Qed.

Lemma Qsum_fmap_zero {A} (l : list A) : EE.Qsum ((λ _, 0) <$> l) == 0.
Proof.
  induction l as [| x l IH]; [reflexivity |].
  rewrite fmap_cons, Qsum_cons, IH. ring.
Qed.

Lemma calculate_area_value area name b rest roi t a :
  calculate_area area ((name, b) :: rest) roi t = Some a →
  a == EE.Qsum
         ((λ p, match b p with
                | Some v => if EE.gt_number v t then v * area p else 0
                | None => 0
                end) <$> roi) / 1000000.
Proof.
  unfold calculate_area, EE.reduceRegion_sum.
  destruct (bool_decide _) eqn:E; [| discriminate].
  simpl. unfold area_km2. rewrite lookup_insert_eq. intros [= <-].
  apply Qmult_comp; [apply Qsum_significant | reflexivity].
Qed.

Lemma calculate_area_None area image roi t :
  calculate_area area image roi t = None ↔
  image = [] ∨ (10 ^ 13 < Z.of_nat (length roi))%Z.
Proof.
  unfold calculate_area, EE.reduceRegion_sum.
  destruct (bool_decide (Z.of_nat (length roi) ≤ 10 ^ 13)%Z) eqn:E.
  - apply bool_decide_eq_true in E. simpl.
    destruct image as [| [n b] rest]; simpl.
    + split; [by left | done].
    + split; [discriminate |]. intros [? | ?]; [discriminate | lia].
  - apply bool_decide_eq_false in E. simpl. split; [intros _; right; lia | done].
Qed.

(** X15.  [calculate_area] fails exactly when the image has no band
    or the region has more than 10^13 pixels. *)
Theorem calculate_area_fails area image roi t :
  calculate_area area image roi t = None ↔
  image = [] ∨ (10 ^ 13 < Z.of_nat (length roi))%Z.
Proof.
  exact (calculate_area_None area image roi t).
Qed.

(** X16.  The aggregate reads only the first band inside the region:
    two images whose first bands agree on the pixels of the region give
    the same result, whatever their other bands, their band names and
    their samples outside the region. *)
Theorem calculate_area_agree area n1 n2 (b1 b2 : EE.band) rest1 rest2 roi t :
  (∀ p, p ∈ roi → EE.sample_eq (b1 p) (b2 p)) →
  match calculate_area area ((n1, b1) :: rest1) roi t,
        calculate_area area ((n2, b2) :: rest2) roi t with
  | Some a1, Some a2 => a1 == a2
  | None, None => True
  | _, _ => False
  end.
Proof.
  intros Hagree.
  destruct (calculate_area area ((n1, b1) :: rest1) roi t) as [a1 |] eqn:E1,
           (calculate_area area ((n2, b2) :: rest2) roi t) as [a2 |] eqn:E2.
  - apply calculate_area_value in E1, E2. rewrite E1, E2.
    apply Qmult_comp; [| reflexivity].
    apply Qsum_fmap_eq. intros p Hp. specialize (Hagree p Hp).
    destruct (b1 p) as [v1 |], (b2 p) as [v2 |]; simpl in Hagree; try done.
    assert (EE.gt_number v1 t = EE.gt_number v2 t) as ->.
    { destruct t as [q |]; [| done]. simpl. unfold EE.Qgt_bool.
      f_equal. apply eq_true_iff_eq. rewrite !Qle_bool_iff.
      by rewrite Hagree. }
    destruct (EE.gt_number v2 t); [by rewrite Hagree | reflexivity].
  - apply calculate_area_None in E2 as [? | Hbig]; [done |].
    assert (calculate_area area ((n1, b1) :: rest1) roi t = None) as Hnone
      by (apply calculate_area_None; by right). congruence.
  - apply calculate_area_None in E1 as [? | Hbig]; [done |].
    assert (calculate_area area ((n2, b2) :: rest2) roi t = None) as Hnone
      by (apply calculate_area_None; by right). congruence.
  - exact I.
Qed.

(** X17.  With non-negative pixel areas and thresholds 0 <= t1 <= t2,
    the aggregate is non-negative and does not grow with the threshold. *)
Theorem calculate_area_antitone area name b rest roi t1 t2 a1 a2 :
  (∀ p, p ∈ roi → 0 <= area p) →
  0 <= t1 → t1 <= t2 →
  calculate_area area ((name, b) :: rest) roi (EE.Finite t1) = Some a1 →
  calculate_area area ((name, b) :: rest) roi (EE.Finite t2) = Some a2 →
  0 <= a2 ∧ a2 <= a1.
Proof.
  intros Harea Ht1 Ht12 E1 E2.
  apply calculate_area_value in E1, E2. rewrite E1, E2.
  split.
  - apply Qle_shift_div_l; [reflexivity |]. rewrite Qmult_0_l.
    rewrite <- (Qsum_fmap_zero roi). apply Qsum_fmap_le. intros p Hp.
    specialize (Harea p Hp).
    destruct (b p) as [v |]; [| apply Qle_refl]. simpl.
    destruct (EE.Qgt_bool v t2) eqn:E; [| apply Qle_refl].
    apply Qgt_bool_iff in E. apply Qmult_le_0_compat; lra.
  - apply Qmult_le_compat_r; [| discriminate].
    apply Qsum_fmap_le. intros p Hp. specialize (Harea p Hp).
    destruct (b p) as [v |]; [| apply Qle_refl]. simpl.
    destruct (EE.Qgt_bool v t2) eqn:E2'.
    + apply Qgt_bool_iff in E2'.
      assert (EE.Qgt_bool v t1 = true) as -> by (apply Qgt_bool_iff; lra).
      apply Qle_refl.
    + destruct (EE.Qgt_bool v t1) eqn:E1'; [| apply Qle_refl].
      apply Qgt_bool_iff in E1'. apply Qmult_le_0_compat; lra.
Qed.


Lemma normalizedDifference_le_1 img A B (f : EE.band) p v :
  EE.normalizedDifference img A B = Some f → f p = Some v → v <= 1.
Proof.
  intros Hf Hv. pose proof Hf as Hf'.
  rewrite normalizedDifference_Some in Hf'.
  destruct (EE.select img A) as [a |] eqn:Ha; [| discriminate].
  destruct (EE.select img B) as [b |] eqn:Hb; [| discriminate].
  destruct (normalizedDifference_sample _ _ _ _ _ _ p Ha Hb Hf)
    as (_ & _ & H).
  by destruct (H v Hv) as (_ & ? & _).
Qed.

Lemma calculate_area_le_total area name (b : EE.band) rest roi t a :
  (∀ p, p ∈ roi → 0 <= area p) →
  0 <= t →
  (∀ p v, b p = Some v → v <= 1) →
  calculate_area area ((name, b) :: rest) roi (EE.Finite t) = Some a →
  0 <= a ∧ a <= total_area roi area.
Proof.
  intros Harea Ht Hb E. apply calculate_area_value in E. rewrite E.
  unfold total_area. split.
  - apply Qle_shift_div_l; [reflexivity |]. rewrite Qmult_0_l.
    rewrite <- (Qsum_fmap_zero roi). apply Qsum_fmap_le. intros p Hp.
    specialize (Harea p Hp).
    destruct (b p) as [v |]; [| apply Qle_refl]. simpl.
    destruct (EE.Qgt_bool v t) eqn:Ev; [| apply Qle_refl].
    apply Qgt_bool_iff in Ev. apply Qmult_le_0_compat; lra.
  - apply Qmult_le_compat_r; [| discriminate].
    apply Qsum_fmap_le. intros p Hp. specialize (Harea p Hp).
    destruct (b p) as [v |] eqn:Hv; [| done]. simpl.
    destruct (EE.Qgt_bool v t) eqn:Ev; [| done].
    specialize (Hb p v Hv). nra.
Qed.

Lemma index_area_le_total area image out name f roi t a :
  (∀ p, p ∈ roi → 0 <= area p) →
  0 <= t →
  calculate_indices image = Some out →
  name ∈ ["NDVI"; "NDWI"; "NDBI"] → name ∉ EE.bandNames image →
  select_image out name = Some f →
  calculate_area area f roi (EE.Finite t) = Some a →
  0 <= a ∧ a <= total_area roi area.
Proof.
  intros Harea Ht Hout Hname Hfresh Hf Ha.
  destruct (calculate_indices_select_by_name _ _ Hout) as (_ & H1 & H2 & H3).
  unfold select_image in Hf.
  destruct (EE.select out name) as [b |] eqn:Hb; [| discriminate].
  injection Hf as <-.
  assert (∃ A B, EE.normalizedDifference image A B = Some b) as (A & B & Hnd).
  { repeat (apply elem_of_cons in Hname as [-> | Hname]);
      [| | | by apply elem_of_nil in Hname].
    - exists "B8", "B4". by rewrite <- H1.
    - exists "B3", "B8". by rewrite <- H2.
    - exists "B11", "B8". by rewrite <- H3. }
  eapply calculate_area_le_total; [done | done | | exact Ha].
  intros p v Hv. by eapply normalizedDifference_le_1.
Qed.

(** X19.  For an index band of [calculate_indices], a non-negative
    threshold and non-negative pixel areas, the aggregate lies between 0
    and the total area of the region. *)
Theorem index_area_bounded area image out name f roi t a :
  (∀ p, p ∈ roi → 0 <= area p) →
  0 <= t →
  calculate_indices image = Some out →
  name ∈ ["NDVI"; "NDWI"; "NDBI"] → name ∉ EE.bandNames image →
  select_image out name = Some f →
  calculate_area area f roi (EE.Finite t) = Some a →
  0 <= a ∧ a <= total_area roi area.
Proof.
  exact (index_area_le_total area image out name f roi t a).
Qed.

Lemma py_div_ratio_bounded a_pre a_post total q :
  0 <= a_pre → a_pre <= total → 0 <= a_post → a_post <= total →
  py_div (a_post - a_pre) total = Some q →
  -100 <= q * 100 ∧ q * 100 <= 100.
Proof.
  intros H1 H2 H3 H4. unfold py_div.
  destruct (Qeq_bool total 0) eqn:E; [discriminate |].
  apply Qeq_bool_neq in E. intros [= <-].
  assert (Hpos : 0 < total).
  { destruct (Qlt_le_dec 0 total); [done |]. exfalso. apply E. lra. }
  assert (-1 <= (a_post - a_pre) / total).
  { apply Qle_shift_div_l; [done | lra]. }
  assert ((a_post - a_pre) / total <= 1).
  { apply Qle_shift_div_r; [done | lra]. }
  split; lra.
Qed.

Lemma composite_index_area
    (composite : option EE.image) area ROI name t a :
  (∀ p, p ∈ ROI → 0 <= area p) →
  0 <= t →
  name ∈ ["NDVI"; "NDWI"; "NDBI"] →
  (∀ img, composite = Some img → name ∉ EE.bandNames img) →
  ((composite ≫= calculate_indices) ≫= (λ i, select_image i name))
    ≫= (λ i : EE.image, calculate_area area i ROI (EE.Finite t)) = Some a →
  0 <= a ∧ a <= total_area ROI area.
Proof.
  intros Harea Ht Hname Hfresh Ha.
  destruct composite as [img |]; [| discriminate]. simpl in Ha.
  destruct (calculate_indices img) as [out |] eqn:Hout; [| discriminate].
  simpl in Ha.
  destruct (select_image out name) as [f |] eqn:Hf; [| discriminate].
  simpl in Ha. eapply index_area_le_total; eauto.
Qed.

(** X20.  With non-negative pixel areas (and composites that do not
    already use the index names), each percentage change [main] computes
    lies between -100 and 100. *)
Theorem percentage_change_bounded S2_SR ROI area :
  (∀ p, p ∈ ROI → 0 <= area p) →
  (∀ name img,
     name ∈ ["NDVI"; "NDWI"; "NDBI"] →
     pre_flood_median S2_SR ROI = Some img ∨
     post_flood_median S2_SR ROI = Some img →
     name ∉ EE.bandNames img) →
  ∀ pct,
    ndvi_percentage_change S2_SR ROI area = Some pct ∨
    ndwi_percentage_change S2_SR ROI area = Some pct ∨
    ndbi_percentage_change S2_SR ROI area = Some pct →
    -100 <= pct ∧ pct <= 100.
Proof.
  intros Harea Hfresh pct.
  assert (Hidx : ∀ name a,
            name ∈ ["NDVI"; "NDWI"; "NDBI"] →
            (((pre_flood_median S2_SR ROI ≫= calculate_indices)
                ≫= (λ i, select_image i name))
               ≫= (λ i : EE.image,
                     calculate_area area i ROI (EE.Finite (1 # 1000)))
               = Some a ∨
             ((post_flood_median S2_SR ROI ≫= calculate_indices)
                ≫= (λ i, select_image i name))
               ≫= (λ i : EE.image,
                     calculate_area area i ROI (EE.Finite (1 # 1000)))
               = Some a) →
            0 <= a ∧ a <= total_area ROI area).
  { intros name a Hname [Ha | Ha];
      (eapply composite_index_area; [done | | done | | exact Ha]);
      [discriminate | intros img Himg; apply Hfresh; auto
      | discriminate | intros img Himg; apply Hfresh; auto]. }
  intros [H | [H | H]].
  - unfold ndvi_percentage_change, ndvi_area_change in H.
    destruct (post_ndvi_area S2_SR ROI area) as [a |] eqn:Ea; [| discriminate].
    destruct (pre_ndvi_area S2_SR ROI area) as [b |] eqn:Eb; [| discriminate].
    simpl in H.
    destruct (py_div (a - b) (total_area ROI area)) as [q |] eqn:Eq;
      [| discriminate].
    injection H as <-.
    pose proof (Hidx "NDVI" a ltac:(left) (or_intror Ea)) as [? ?].
    pose proof (Hidx "NDVI" b ltac:(left) (or_introl Eb)) as [? ?].
    eapply py_div_ratio_bounded; [| | | | exact Eq]; done.
  - unfold ndwi_percentage_change, ndwi_area_change in H.
    destruct (post_ndwi_area S2_SR ROI area) as [a |] eqn:Ea; [| discriminate].
    destruct (pre_ndwi_area S2_SR ROI area) as [b |] eqn:Eb; [| discriminate].
    simpl in H.
    destruct (py_div (a - b) (total_area ROI area)) as [q |] eqn:Eq;
      [| discriminate].
    injection H as <-.
    pose proof (Hidx "NDWI" a ltac:(right; left) (or_intror Ea)) as [? ?].
    pose proof (Hidx "NDWI" b ltac:(right; left) (or_introl Eb)) as [? ?].
    eapply py_div_ratio_bounded; [| | | | exact Eq]; done.
  - unfold ndbi_percentage_change, ndbi_area_change in H.
    destruct (post_ndbi_area S2_SR ROI area) as [a |] eqn:Ea; [| discriminate].
    destruct (pre_ndbi_area S2_SR ROI area) as [b |] eqn:Eb; [| discriminate].
    simpl in H.
    destruct (py_div (a - b) (total_area ROI area)) as [q |] eqn:Eq;
      [| discriminate].
    injection H as <-.
    pose proof (Hidx "NDBI" a ltac:(right; right; left) (or_intror Ea)) as [? ?].
    pose proof (Hidx "NDBI" b ltac:(right; right; left) (or_introl Eb)) as [? ?].
    eapply py_div_ratio_bounded; [| | | | exact Eq]; done.
Qed.

(** *** Output directory *)


(** *** Water increase and risk map of [main] *)

Lemma positive_part_sample (d : EE.band) p v :
  EE.updateMask d (EE.gt d (EE.Finite 0)) p = Some v ↔ d p = Some v ∧ 0 < v.
Proof.
  unfold EE.updateMask, EE.gt. destruct (d p) as [x |]; simpl.
  - destruct (EE.Qgt_bool x 0) eqn:E; simpl.
    + apply Qgt_bool_iff in E. split; [by intros [= <-] | by intros [? _]].
    + apply not_true_iff_false in E. rewrite Qgt_bool_iff in E.
      split; [discriminate |]. intros [[= <-] ?]. contradiction.
  - split; [discriminate | by intros [? _]].
Qed.

Lemma subtract_image_Some a b out :
  subtract_image a b = Some out →
  ∃ n x m y, a = [(n, x)] ∧ b = [(m, y)] ∧ out = [(n, EE.subtract x y)].
Proof.
  unfold subtract_image.
  destruct a as [| [n x] [| ? ?]]; try discriminate.
  destruct b as [| [m y] [| ? ?]]; try discriminate.
  intros [= <-]. by exists n, x, m, y.
Qed.

(** X23.  The water-increase layer holds exactly the strictly
    positive samples of the NDWI difference, under the same band name. *)
Theorem ndwi_increase_positive S2_SR ROI inc :
  ndwi_increase S2_SR ROI = Some inc →
  ∃ name d f,
    ndwi_diff S2_SR ROI = Some [(name, d)] ∧ inc = [(name, f)] ∧
    ∀ p v, f p = Some v ↔ d p = Some v ∧ 0 < v.
Proof.
  unfold ndwi_increase.
  destruct (ndwi_diff S2_SR ROI) as [diff |] eqn:E; [| discriminate].
  simpl. intros [= <-]. unfold ndwi_diff in E.
  destruct (post_ndwi S2_SR ROI) as [a |]; [| discriminate].
  destruct (pre_ndwi S2_SR ROI) as [b |]; [| discriminate].
  simpl in E. apply subtract_image_Some in E as (n & x & m & y & -> & -> & ->).
  eexists n, _, _. split; [reflexivity |]. split; [reflexivity |].
  intros p v. apply positive_part_sample.
Qed.

Lemma flood_risk_vis_is_Some (d : EE.band) p :
  is_Some (main_risk.flood_risk_vis d p) ↔ is_Some (d p).
Proof.
  unfold main_risk.flood_risk_vis, main_risk.low_risk, main_risk.medium_risk,
    main_risk.high_risk, EE.add, EE.multiply, EE.And, EE.gt, EE.lte,
    EE.lift2, EE.constant.
  destruct (d p); simpl; split; intros [? ?]; by eauto.
Qed.

(** X24.  The risk map fails exactly when the elevation image has no
    band; otherwise it carries a code exactly at the pixels of the region
    where the first elevation band is valid. *)
Theorem flood_risk_vis_extent ROI SRTMGL1_003 :
  (flood_risk_vis ROI SRTMGL1_003 = None ↔ SRTMGL1_003 = []) ∧
  ∀ risk, flood_risk_vis ROI SRTMGL1_003 = Some risk →
    ∃ name elevation,
      SRTMGL1_003 !! 0%nat = Some (name, elevation) ∧
      ∀ p, is_Some (risk p) ↔ p ∈ ROI ∧ is_Some (elevation p).
Proof.
  unfold flood_risk_vis, dem.
  destruct SRTMGL1_003 as [| [name elevation] rest]; simpl.
  - split; [done | discriminate].
  - split; [split; discriminate |]. intros risk [= <-].
    exists name, elevation. split; [done |]. intros p.
    rewrite flood_risk_vis_is_Some. unfold EE.clip.
    destruct (bool_decide (p ∈ ROI)) eqn:E.
    + apply bool_decide_eq_true in E. tauto.
    + apply bool_decide_eq_false in E.
      split; [by intros [? ?] | tauto].
Qed.


(** *** Epoch collections and composites *)

Lemma map_collection_mask c c' :
  EE.map_collection mask_sentinel2_clouds c = Some c' →
  Forall2 masked_scene c c'.
Proof.
  unfold EE.map_collection. intros H%mapM_Some.
  eapply Forall2_impl; [exact H |]. intros s s' Hs. simpl in Hs.
  destruct (mask_sentinel2_clouds (EE.bands s)) as [b |] eqn:E;
    [| discriminate].
  injection Hs as <-. unfold masked_scene. simpl. by repeat split.
Qed.

Lemma map_collection_mask_None c :
  EE.map_collection mask_sentinel2_clouds c = None ↔
  ∃ s, s ∈ c ∧ EE.select (EE.bands s) "SCL" = None.
Proof.
  unfold EE.map_collection. split.
  - intros H%mapM_None%Exists_exists. destruct H as (s & Hs & H).
    exists s. split; [done |].
    simpl in H. rewrite mask_sentinel2_clouds_unfold in H.
    destruct (EE.select (EE.bands s) "SCL"); [discriminate | done].
  - intros (s & Hs & H). apply mapM_None, Exists_exists.
    exists s. split; [done |].
    simpl. rewrite mask_sentinel2_clouds_unfold, H. done.
Qed.

Lemma sentinel2_elem S2_SR ROI s :
  s ∈ sentinel2 S2_SR ROI ↔
  s ∈ S2_SR ∧
  (∃ p, p ∈ EE.footprint s ∧ p ∈ ROI) ∧
  (EE.date 2024 8 25 ≤ EE.time_start s)%Z ∧
  (EE.time_start s < EE.date 2024 11 25)%Z ∧
  EE.CLOUDY_PIXEL_PERCENTAGE s < 40.
Proof.
  unfold sentinel2, EE.filter_lt_cloudy, EE.filterDate, EE.filterBounds.
  rewrite list_elem_of_In, filter_In, <- list_elem_of_In.
  rewrite !list_elem_of_filter, Exists_exists, Qgt_bool_iff. simpl.
  tauto.
Qed.

(** X25.  Every scene of [pre_flood] was acquired from 2024-08-25
    up to, not including, 2024-09-25; every scene of [post_flood] from
    2024-08-25 up to, not including, 2024-11-25; all have a cloud
    percentage below 40 and a footprint meeting the region. *)
Theorem epoch_collections_window S2_SR ROI c s' :
  (pre_flood S2_SR ROI = Some c ∧ s' ∈ c →
   (EE.date 2024 8 25 ≤ EE.time_start s')%Z ∧
   (EE.time_start s' < EE.date 2024 9 25)%Z ∧
   EE.CLOUDY_PIXEL_PERCENTAGE s' < 40 ∧
   ∃ p, p ∈ EE.footprint s' ∧ p ∈ ROI) ∧
  (post_flood S2_SR ROI = Some c ∧ s' ∈ c →
   (EE.date 2024 8 25 ≤ EE.time_start s')%Z ∧
   (EE.time_start s' < EE.date 2024 11 25)%Z ∧
   EE.CLOUDY_PIXEL_PERCENTAGE s' < 40 ∧
   ∃ p, p ∈ EE.footprint s' ∧ p ∈ ROI).
Proof.
  split; intros [Hc Hs']; apply map_collection_mask in Hc;
    apply list_elem_of_lookup in Hs' as [i Hi];
    destruct (Forall2_lookup_r _ _ _ _ _ Hc Hi) as (s & Hs & _ & Ht & Hcl & Hf);
    apply list_elem_of_lookup_2 in Hs;
    apply list_elem_of_filter in Hs as [[H1 H2] Hs];
    apply sentinel2_elem in Hs as (_ & Hb & H3 & H4 & H5);
    rewrite Ht, Hcl, Hf; simpl in *; tauto.
Qed.

Lemma mapM_sublist {A B} (f : A → option B) l1 l2 k1 k2 :
  l1 `sublist_of` l2 → mapM f l1 = Some k1 → mapM f l2 = Some k2 →
  k1 `sublist_of` k2.
Proof.
  intros Hsub. revert k1 k2.
  induction Hsub as [| x l1 l2 Hsub IH | x l1 l2 Hsub IH]; intros k1 k2.
  - intros [= <-] _. apply sublist_nil_l.
  - rewrite !mapM_Some. intros H1 H2.
    apply Forall2_cons_inv_l in H1 as (y1 & k1' & Hy1 & H1 & ->).
    apply Forall2_cons_inv_l in H2 as (y2 & k2' & Hy2 & H2 & ->).
    assert (y1 = y2) as -> by congruence.
    apply sublist_skip. apply IH; by apply mapM_Some.
  - rewrite !mapM_Some. intros H1 H2.
    apply Forall2_cons_inv_l in H2 as (y2 & k2' & Hy2 & H2 & ->).
    apply sublist_cons. apply IH; by apply mapM_Some.
Qed.

(** X26.  Every scene of [pre_flood] is a scene of [post_flood]
    too, in the same order. *)
Theorem pre_flood_sublist_post_flood S2_SR ROI pre post :
  pre_flood S2_SR ROI = Some pre →
  post_flood S2_SR ROI = Some post →
  pre `sublist_of` post.
Proof.
  unfold pre_flood, post_flood, EE.map_collection. intros Hpre Hpost.
  eapply mapM_sublist; [| exact Hpre | exact Hpost].
  unfold EE.filterDate.
  rewrite <- (list_filter_filter_l
                (λ s, (PRE_FLOOD_RANGE.1 ≤ EE.time_start s)%Z ∧
                      (EE.time_start s < PRE_FLOOD_RANGE.2)%Z)
                (λ s, (PRE_FLOOD_RANGE.1 ≤ EE.time_start s)%Z ∧
                      (EE.time_start s < POST_FLOOD_RANGE.2)%Z)).
  - apply sublist_filter.
  - intros s [H1 H2]. split; [done |].
    eapply Z.lt_trans; [exact H2 |]. by vm_compute.
Qed.

(** X27.  Building an epoch collection fails exactly when a scene
    that passes its filters has no [SCL] band. *)
Theorem epoch_collections_fail S2_SR ROI :
  (pre_flood S2_SR ROI = None ↔
   ∃ s, s ∈ sentinel2 S2_SR ROI ∧
        (EE.time_start s < EE.date 2024 9 25)%Z ∧
        EE.select (EE.bands s) "SCL" = None) ∧
  (post_flood S2_SR ROI = None ↔
   ∃ s, s ∈ sentinel2 S2_SR ROI ∧ EE.select (EE.bands s) "SCL" = None).
Proof.
  unfold pre_flood, post_flood. rewrite !map_collection_mask_None.
  split; split; intros (s & Hs & H).
  - apply list_elem_of_filter in Hs as [[_ H2] Hs]. by exists s.
  - destruct H as [H2 H]. exists s. split; [| done].
    apply list_elem_of_filter. split; [| done]. split; [| done].
    by apply sentinel2_elem in Hs as (_ & _ & ? & _).
  - apply list_elem_of_filter in Hs as [_ Hs]. by exists s.
  - exists s. split; [| done]. apply list_elem_of_filter. split; [| done].
    by apply sentinel2_elem in Hs as (_ & _ & ? & ? & _).
Qed.

Lemma Qinsert_length x l : length (EE.Qinsert x l) = S (length l).
Proof.
  induction l as [| y l IH]; simpl; [done |].
  destruct (Qle_bool x y); simpl; [done | by rewrite IH].
Qed.

Lemma Qsort_length l : length (EE.Qsort l) = length l.
Proof.
  unfold EE.Qsort. induction l as [| x l IH]; simpl; [done |].
  by rewrite Qinsert_length, IH.
Qed.

Lemma Qmedian_None l : EE.Qmedian l = None ↔ l = [].
Proof.
  split; [| by intros ->].
  unfold EE.Qmedian. pose proof (Qsort_length l) as Hlen.
  destruct l as [| x l]; [done |]. intros H. exfalso.
  set (s := EE.Qsort (x :: l)) in *. simpl in Hlen.
  assert (Hhalf : (length s / 2 < length s)%nat).
  { apply Nat.div_lt; lia. }
  destruct (Nat.even (length s)).
  - assert (Hlo : (length s / 2 - 1 < length s)%nat) by lia.
    apply lookup_lt_is_Some_2 in Hlo as [lo Hlo].
    apply lookup_lt_is_Some_2 in Hhalf as [hi Hhi].
    rewrite Hlo, Hhi in H. discriminate.
  - apply lookup_lt_is_Some_2 in Hhalf as [m Hm]. congruence.
Qed.

Lemma omap_nil {A B} (f : A → option B) l :
  omap f l = [] ↔ ∀ x, x ∈ l → f x = None.
Proof.
  induction l as [| x l IH]; simpl.
  - split; [by intros _ ? ?%elem_of_nil | done].
  - destruct (f x) eqn:E.
    + split; [discriminate |]. intros H.
      specialize (H x ltac:(left)). congruence.
    + rewrite IH. split.
      * intros H y [-> | Hy]%elem_of_cons; [done | by apply H].
      * intros H y Hy. apply H. by right.
Qed.

Lemma median_lookup c i n (b : EE.band) :
  EE.median c !! i = Some (n, b) →
  ∀ p, b p = None ↔
       ∀ s, s ∈ c → (band ← EE.select (EE.bands s) n; band p) = None.
Proof.
  unfold EE.median. destruct c as [| s0 rest]; [discriminate |].
  unfold EE.image. rewrite list_lookup_fmap.
  intros ([n0 b0] & _ & H)%fmap_Some. simpl in H.
  injection H as -> ->. intros p. rewrite Qmedian_None.
  exact (omap_nil (λ s : EE.scene, band ← EE.select (EE.bands s) n0; band p)
                  (s0 :: rest)).
Qed.

Lemma masked_scene_sample s s' n p :
  masked_scene s s' →
  (band ← EE.select (EE.bands s') n; band p) = None ↔
  ∀ band scl,
    EE.select (EE.bands s) n = Some band →
    EE.select (EE.bands s) "SCL" = Some scl →
    band p = None ∨ scl p = None ∨
    ∃ c, scl p = Some c ∧ (c == 3 ∨ c == 8 ∨ c == 9 ∨ c == 10 ∨ c == 11).
Proof.
  intros [Hmask _]. rewrite mask_sentinel2_clouds_unfold in Hmask.
  destruct (EE.select (EE.bands s) "SCL") as [scl |] eqn:Hscl;
    [| discriminate].
  injection Hmask as <-. rewrite select_map_bands.
  destruct (EE.select (EE.bands s) n) as [band |]; simpl.
  2:{ split; [by intros _ ? ? ? | done]. }
  rewrite updateMask_cloud_free. split.
  - intros H band' scl' [= <-] [= <-].
    destruct (scl p) as [c |]; [| by right; left].
    destruct (clear_scl c) eqn:E; [by left |].
    right; right. exists c. split; [done |].
    apply not_true_iff_false in E. rewrite clear_scl_true in E.
    destruct (Qeq_dec c 3), (Qeq_dec c 8), (Qeq_dec c 9), (Qeq_dec c 10),
      (Qeq_dec c 11); tauto.
  - intros H. destruct (H band scl eq_refl eq_refl) as [Hb | [Hs | (c & Hc & Hcode)]].
    + rewrite Hb. destruct (scl p) as [c |]; [| done].
      by destruct (clear_scl c).
    + by rewrite Hs.
    + rewrite Hc. destruct (clear_scl c) eqn:E; [| done].
      apply clear_scl_true in E. tauto.
Qed.

(** X28.  A pixel of a band of an epoch composite is masked exactly
    when, in every scene of the epoch that has the band, the band is
    masked there or the [SCL] sample is masked or one of the classes
    3, 8, 9, 10, 11. *)
Theorem composite_masked_pixels S2_SR ROI window img i n (b : EE.band) p :
  (window = EE.filterDate PRE_FLOOD_RANGE.1 PRE_FLOOD_RANGE.2
              (sentinel2 S2_SR ROI) ∧
   pre_flood_median S2_SR ROI = Some img) ∨
  (window = EE.filterDate PRE_FLOOD_RANGE.1 POST_FLOOD_RANGE.2
              (sentinel2 S2_SR ROI) ∧
   post_flood_median S2_SR ROI = Some img) →
  img !! i = Some (n, b) →
  b p = None ↔
  ∀ s band scl,
    s ∈ window →
    EE.select (EE.bands s) n = Some band →
    EE.select (EE.bands s) "SCL" = Some scl →
    band p = None ∨ scl p = None ∨
    ∃ c, scl p = Some c ∧ (c == 3 ∨ c == 8 ∨ c == 9 ∨ c == 10 ∨ c == 11).
Proof.
  intros Hw Hi.
  assert (∃ c, EE.map_collection mask_sentinel2_clouds window = Some c ∧
               img = EE.median c) as (c & Hc & ->).
  { destruct Hw as [[-> H] | [-> H]].
    - unfold pre_flood_median, pre_flood in H.
      destruct (EE.map_collection _ _) as [c |]; [| discriminate].
      injection H as <-. by exists c.
    - unfold post_flood_median, post_flood in H.
      destruct (EE.map_collection _ _) as [c |]; [| discriminate].
      injection H as <-. by exists c. }
  apply map_collection_mask in Hc.
  rewrite (median_lookup _ _ _ _ Hi p). split.
  - intros H s band scl Hs.
    apply list_elem_of_lookup in Hs as [j Hj].
    destruct (Forall2_lookup_l _ _ _ _ _ Hc Hj) as (s' & Hs' & Hm).
    apply list_elem_of_lookup_2 in Hs'. specialize (H s' Hs').
    rewrite (masked_scene_sample _ _ _ _ Hm) in H. apply H.
  - intros H s' Hs'.
    apply list_elem_of_lookup in Hs' as [j Hj].
    destruct (Forall2_lookup_r _ _ _ _ _ Hc Hj) as (s & Hs & Hm).
    apply list_elem_of_lookup_2 in Hs.
    rewrite (masked_scene_sample _ _ _ _ Hm).
    intros band scl. by apply H.
Qed.

(** *** The composite does not depend on the order of the catalogue *)

Lemma Qle_bool_total x y : Qle_bool x y = false → Qle_bool y x = true.
Proof.
  intros H. apply Qle_bool_iff. apply not_true_iff_false in H.
  rewrite Qle_bool_iff in H. lra.
Qed.

Lemma Qle_bool_Qeq x x' y y' :
  x == x' → y == y' → Qle_bool x y = Qle_bool x' y'.
Proof.
  intros Hx Hy. apply eq_true_iff_eq. rewrite !Qle_bool_iff.
  by rewrite Hx, Hy.
Qed.

Lemma Forall2_Qeq_refl l : Forall2 Qeq l l.
Proof. induction l; constructor; [reflexivity | done]. Qed.

Lemma Forall2_Qeq_trans l1 l2 l3 :
  Forall2 Qeq l1 l2 → Forall2 Qeq l2 l3 → Forall2 Qeq l1 l3.
Proof.
  intros H. revert l3. induction H as [| x y l1 l2 Hxy H IH]; intros l3 H3.
  - by apply Forall2_nil_inv_l in H3 as ->.
  - apply Forall2_cons_inv_l in H3 as (z & l3' & Hyz & H3 & ->).
    constructor; [by rewrite Hxy | by apply IH].
Qed.

Lemma Qinsert_Qeq x x' l l' :
  x == x' → Forall2 Qeq l l' →
  Forall2 Qeq (EE.Qinsert x l) (EE.Qinsert x' l').
Proof.
  intros Hx H. induction H as [| y y' l l' Hy H IH]; simpl.
  - by repeat constructor.
  - rewrite (Qle_bool_Qeq x x' y y' Hx Hy).
    destruct (Qle_bool x' y'); repeat constructor; done.
Qed.

Lemma Qinsert_comm x y l :
  Forall2 Qeq (EE.Qinsert x (EE.Qinsert y l)) (EE.Qinsert y (EE.Qinsert x l)).
Proof.
  assert (Hbase : ∀ k,
            Forall2 Qeq
              (if Qle_bool x y then x :: y :: k else y :: x :: k)
              (if Qle_bool y x then y :: x :: k else x :: y :: k)).
  { intros k. destruct (Qle_bool x y) eqn:Exy, (Qle_bool y x) eqn:Eyx.
    - apply Qle_bool_iff in Exy, Eyx.
      assert (x == y) by lra.
      repeat constructor; [done | done | apply Forall2_Qeq_refl].
    - apply Forall2_Qeq_refl.
    - apply Forall2_Qeq_refl.
    - apply Qle_bool_total in Exy. congruence. }
  induction l as [| z l IH].
  - simpl. specialize (Hbase []).
    destruct (Qle_bool x y) eqn:Exy, (Qle_bool y x) eqn:Eyx; simpl;
      rewrite ?Exy, ?Eyx; simpl; try exact Hbase;
      apply Qle_bool_total in Exy; congruence.
  - simpl.
    destruct (Qle_bool y z) eqn:Eyz, (Qle_bool x z) eqn:Exz; simpl;
      rewrite ?Eyz, ?Exz.
    + specialize (Hbase (z :: l)).
      destruct (Qle_bool x y) eqn:Exy, (Qle_bool y x) eqn:Eyx; simpl;
        rewrite ?Exz, ?Eyz; try exact Hbase;
        apply Qle_bool_total in Exy; congruence.
    + assert (Qle_bool x y = false) as ->.
      { apply not_true_iff_false. rewrite Qle_bool_iff.
        apply Qle_bool_iff in Eyz. apply not_true_iff_false in Exz.
        rewrite Qle_bool_iff in Exz. lra. }
      simpl. rewrite ?Exz, ?Eyz. apply Forall2_Qeq_refl.
    + assert (Qle_bool y x = false) as ->.
      { apply not_true_iff_false. rewrite Qle_bool_iff.
        apply Qle_bool_iff in Exz. apply not_true_iff_false in Eyz.
        rewrite Qle_bool_iff in Eyz. lra. }
      simpl. rewrite ?Exz, ?Eyz. apply Forall2_Qeq_refl.
    + constructor; [reflexivity | exact IH].
Qed.

Lemma Qsort_Permutation l l' :
  l ≡ₚ l' → Forall2 Qeq (EE.Qsort l) (EE.Qsort l').
Proof.
  unfold EE.Qsort. induction 1 as [| x l l' _ IH | x y l | l1 l2 l3 _ IH1 _ IH2].
  - constructor.
  - simpl. by apply Qinsert_Qeq.
  - simpl. apply Qinsert_comm.
  - by eapply Forall2_Qeq_trans.
Qed.

Lemma Qmedian_Permutation l l' :
  l ≡ₚ l' → EE.sample_eq (EE.Qmedian l) (EE.Qmedian l').
Proof.
  intros H%Qsort_Permutation. unfold EE.Qmedian.
  pose proof (Forall2_length _ _ _ H) as Hlen. rewrite <- Hlen.
  assert (Hlook : ∀ i, EE.sample_eq (EE.Qsort l !! i) (EE.Qsort l' !! i)).
  { intros i. destruct (EE.Qsort l !! i) as [x |] eqn:Ex.
    - destruct (Forall2_lookup_l _ _ _ _ _ H Ex) as (y & -> & Hxy). done.
    - apply lookup_ge_None in Ex. rewrite Hlen in Ex.
      apply lookup_ge_None in Ex. by rewrite Ex. }
  destruct (Nat.even (length (EE.Qsort l))); [| apply Hlook].
  pose proof (Hlook (length (EE.Qsort l) / 2 - 1)%nat) as H1.
  pose proof (Hlook (length (EE.Qsort l) / 2)%nat) as H2.
  destruct (EE.Qsort l !! _) as [a |], (EE.Qsort l' !! _) as [a' |];
    simpl in *; try done.
  destruct (EE.Qsort l !! _) as [b |], (EE.Qsort l' !! _) as [b' |];
    simpl in *; try done.
  by rewrite H1, H2.
Qed.

Lemma List_filter_Permutation {A} (f : A → bool) l l' :
  l ≡ₚ l' → List.filter f l ≡ₚ List.filter f l'.
Proof.
  induction 1 as [| x l l' _ IH | x y l | l1 l2 l3 _ IH1 _ IH2]; simpl.
  - done.
  - destruct (f x); [by constructor | done].
  - destruct (f x), (f y); try done. apply perm_swap.
  - by etrans.
Qed.

Lemma mapM_Permutation {A B} (f : A → option B) l l' k :
  l ≡ₚ l' → mapM f l = Some k → ∃ k', mapM f l' = Some k' ∧ k ≡ₚ k'.
Proof.
  intros H. revert k.
  induction H as [| x l l' _ IH | x y l | l1 l2 l3 _ IH1 _ IH2]; intros k.
  - intros [= <-]. by exists [].
  - intros (z & k0 & Hz & Hk & ->)%mapM_Some%Forall2_cons_inv_l.
    apply mapM_Some in Hk. destruct (IH _ Hk) as (k' & Hk' & Hperm).
    exists (z :: k'). split; [| by constructor].
    simpl. by rewrite Hz, Hk'.
  - intros (z & k0 & Hz & Hk & ->)%mapM_Some%Forall2_cons_inv_l.
    apply Forall2_cons_inv_l in Hk as (w & k1 & Hw & Hk & ->).
    apply mapM_Some in Hk.
    exists (w :: z :: k1). split; [| apply perm_swap].
    simpl. by rewrite Hw, Hz, Hk.
  - intros Hk. destruct (IH1 _ Hk) as (k2 & Hk2 & Hp1).
    destruct (IH2 _ Hk2) as (k3 & Hk3 & Hp2).
    exists k3. split; [done | by etrans].
Qed.

Lemma sentinel2_Permutation S S' ROI :
  S ≡ₚ S' → sentinel2 S ROI ≡ₚ sentinel2 S' ROI.
Proof.
  intros H. unfold sentinel2, EE.filter_lt_cloudy, EE.filterDate,
    EE.filterBounds.
  apply List_filter_Permutation. by rewrite H.
Qed.

Lemma median_sample c i n (b : EE.band) p :
  EE.median c !! i = Some (n, b) →
  b p = EE.Qmedian (omap (λ s, band ← EE.select (EE.bands s) n; band p) c).
Proof.
  unfold EE.median. destruct c as [| s0 rest]; [discriminate |].
  unfold EE.image. rewrite list_lookup_fmap.
  intros ([n0 b0] & _ & H)%fmap_Some. simpl in H.
  by injection H as -> ->.
Qed.

Lemma mask_sentinel2_clouds_names image out :
  mask_sentinel2_clouds image = Some out →
  EE.bandNames out = EE.bandNames image.
Proof.
  rewrite mask_sentinel2_clouds_unfold.
  destruct (EE.select image "SCL") as [scl |]; simpl; [| discriminate].
  intros [= <-]. apply bandNames_map_bands.
Qed.

Lemma median_names s0 rest :
  EE.bandNames (EE.median (s0 :: rest)) = EE.bandNames (EE.bands s0).
Proof.
  unfold EE.median, EE.bandNames. rewrite <- list_fmap_compose.
  by apply list_fmap_ext.
Qed.

(** Composites of two orders of a collection with uniform band names. *)
Lemma median_Permutation c c' :
  c ≡ₚ c' →
  (∀ s s', s ∈ c → s' ∈ c →
           EE.bandNames (EE.bands s) = EE.bandNames (EE.bands s')) →
  image_eq (EE.median c) (EE.median c').
Proof.
  intros Hperm Hnames.
  destruct c as [| s0 rest], c' as [| s0' rest'].
  - constructor.
  - by apply Permutation_nil_cons in Hperm.
  - symmetry in Hperm. by apply Permutation_nil_cons in Hperm.
  - assert (Hn : EE.bandNames (EE.median (s0 :: rest))
                 = EE.bandNames (EE.median (s0' :: rest'))).
    { rewrite !median_names. apply Hnames; [left |].
      rewrite Hperm. left. }
    apply Forall2_same_length_lookup_2.
    + apply (f_equal length) in Hn. unfold EE.bandNames in Hn.
      by rewrite !length_fmap in Hn.
    + intros i [n b] [n' b'] Hb Hb'.
      assert (n = n') as <-.
      { apply (f_equal (λ l, l !! i)) in Hn. unfold EE.bandNames in Hn.
        unfold EE.image in *. rewrite !list_lookup_fmap, Hb, Hb' in Hn.
        by injection Hn. }
      split; [done |]. intros p. simpl.
      rewrite (median_sample _ _ _ _ p Hb), (median_sample _ _ _ _ p Hb').
      apply Qmedian_Permutation. by rewrite Hperm.
Qed.

(** X29.  For a catalogue whose scenes all have the same band names,
    the epoch composites do not depend on the order of the catalogue: the
    composite of the permuted catalogue has the same bands, under the
    same names and in the same order, with the same samples. *)
Theorem composite_order_independent
    (composite : EE.ImageCollection → EE.geometry → option EE.image)
    S S' ROI img :
  composite = pre_flood_median ∨ composite = post_flood_median →
  S ≡ₚ S' →
  (∀ s s', s ∈ S → s' ∈ S →
           EE.bandNames (EE.bands s) = EE.bandNames (EE.bands s')) →
  composite S ROI = Some img →
  ∃ img', composite S' ROI = Some img' ∧ image_eq img img'.
Proof.
  intros Hc Hperm Hnames Himg.
  assert (∃ start stop c,
            (∀ T, composite T ROI =
                  EE.median <$>
                    EE.map_collection mask_sentinel2_clouds
                      (EE.filterDate start stop (sentinel2 T ROI))) ∧
            EE.map_collection mask_sentinel2_clouds
              (EE.filterDate start stop (sentinel2 S ROI)) = Some c ∧
            img = EE.median c) as (start & stop & c & Hdef & Hmap & ->).
  { destruct Hc as [-> | ->].
    - exists PRE_FLOOD_RANGE.1, PRE_FLOOD_RANGE.2.
      unfold pre_flood_median, pre_flood in Himg.
      destruct (EE.map_collection _ _) as [c |] eqn:E; [| discriminate].
      injection Himg as <-. by exists c.
    - exists PRE_FLOOD_RANGE.1, POST_FLOOD_RANGE.2.
      unfold post_flood_median, post_flood in Himg.
      destruct (EE.map_collection _ _) as [c |] eqn:E; [| discriminate].
      injection Himg as <-. by exists c. }
  assert (EE.filterDate start stop (sentinel2 S ROI)
            ≡ₚ EE.filterDate start stop (sentinel2 S' ROI)) as Hwin.
  { unfold EE.filterDate. by rewrite (sentinel2_Permutation S S' ROI). }
  destruct (mapM_Permutation _ _ _ _ Hwin Hmap) as (c' & Hc' & Hcc').
  exists (EE.median c'). split.
  { rewrite Hdef. unfold EE.map_collection. by rewrite Hc'. }
  apply median_Permutation; [done |].
  assert (Hsrc : ∀ m, m ∈ c →
            ∃ s, s ∈ S ∧ EE.bandNames (EE.bands m) = EE.bandNames (EE.bands s)).
  { intros m Hm. apply list_elem_of_lookup in Hm as [i Hi].
    destruct (Forall2_lookup_r _ _ _ _ _ (map_collection_mask _ _ Hmap) Hi)
      as (s & Hs & Hmask & _).
    exists s. split; [| by apply mask_sentinel2_clouds_names].
    apply list_elem_of_lookup_2, list_elem_of_filter in Hs as [_ Hs].
    by apply sentinel2_elem in Hs as [Hs _]. }
  intros m m' Hm Hm'.
  destruct (Hsrc m Hm) as (s & Hs & ->).
  destruct (Hsrc m' Hm') as (s' & Hs' & ->).
  by apply Hnames.
Qed.

(** *** The properties on the sample scenes *)

(** The near-infrared band of [early] under the cloud mask. *)
Lemma mask_sentinel2_clouds_pixels_witness :
  ∃ b', default [] (mask_sentinel2_clouds fixtures.early) !! 0%nat
          = Some ("B8", b') ∧
    (∀ p, EE.band_of_list [Some 4; Some 9; Some 6] p = None → b' p = None) ∧
    (∀ p c, EE.band_of_list [Some 4; Some 9; Some 6] p = Some c →
            c == 3 ∨ c == 8 ∨ c == 9 ∨ c == 10 ∨ c == 11 → b' p = None) ∧
    (∀ p c, EE.band_of_list [Some 4; Some 9; Some 6] p = Some c →
            ¬ c == 3 → ¬ c == 8 → ¬ c == 9 → ¬ c == 10 → ¬ c == 11 →
            b' p = EE.band_of_list [Some 3000; Some 2500; Some 400] p).
Proof.
  apply (mask_sentinel2_clouds_pixels fixtures.early
           (EE.band_of_list [Some 4; Some 9; Some 6])
           (default [] (mask_sentinel2_clouds fixtures.early)) 0 "B8"
           (EE.band_of_list [Some 3000; Some 2500; Some 400])); reflexivity.
Defined.

(** Masking [early] twice. *)
Lemma mask_sentinel2_clouds_idempotent_witness :
  ∃ twice,
    mask_sentinel2_clouds (default [] (mask_sentinel2_clouds fixtures.early))
      = Some twice ∧
    EE.bandNames twice
      = EE.bandNames (default [] (mask_sentinel2_clouds fixtures.early)) ∧
    ∀ i n (b : EE.band), twice !! i = Some (n, b) →
      ∃ b', default [] (mask_sentinel2_clouds fixtures.early) !! i
              = Some (n, b') ∧
            ∀ p, b p = b' p.
Proof.
  apply (mask_sentinel2_clouds_idempotent fixtures.early). reflexivity.
Defined.

(** [ramp_pre] matched against itself. *)
Lemma histogram_match_simple_self_witness :
  ∃ matched,
    histogram_match_simple samples.ramp_pre samples.ramp_pre "B8"
      samples.roi3 10 = Some [("B8_matched", matched)] ∧
    ∀ p, EE.sample_eq (matched p)
           (EE.band_of_list [Some 2; Some 4; None; Some 6] p).
Proof.
  apply (histogram_match_simple_self samples.ramp_pre "B8" samples.roi3 10
           (EE.band_of_list [Some 2; Some 4; None; Some 6]) 2 4);
    try reflexivity.
  intros H. discriminate H.
Defined.



(** The first sharpened band of [ramp_pre] under the reference 5. *)
Lemma pansharpen_simple_mean_valid_witness :
  ∃ b, EE.select samples.ramp_pre "B4" = Some b ∧
       ∀ p, is_Some (EE.add (EE.band_of_list [Some 1; Some 2; Some 3])
                       (EE.subtract (EE.constant 5)
                          (EE.reduce_mean samples.ramp_pre)) p) ↔
            is_Some (b p) ∧ is_Some (EE.constant 5 p).
Proof.
  apply (pansharpen_simple_mean_valid samples.ramp_pre (EE.constant 5)
           ["B4"; "B8"]
           (default [] (pansharpen_simple_mean samples.ramp_pre (EE.constant 5)
                          ["B4"; "B8"])) 0 "B4"); reflexivity.
Defined.


(** Sharpening only the band B8 of [ramp_pre], twice, with the mean of
    both bands as reference. *)
Lemma pansharpen_simple_mean_selected_identity_witness :
  ∃ b, EE.select samples.ramp_pre "B8" = Some b ∧
       EE.band_eq
         (EE.add (EE.band_of_list [Some 2; Some 4; None; Some 6])
            (EE.subtract (EE.reduce_mean samples.ramp_pre)
               (EE.reduce_mean samples.ramp_pre)))
         b.
Proof.
  apply (pansharpen_simple_mean_selected_identity samples.ramp_pre
           (EE.reduce_mean samples.ramp_pre) ["B8"; "B8"]
           (default [] (pansharpen_simple_mean samples.ramp_pre
                          (EE.reduce_mean samples.ramp_pre) ["B8"; "B8"]))
           1 "B8").
  - intros p. apply sample_eq_refl.
  - reflexivity.
  - reflexivity.
Defined.

(** The vegetation index of [early] at its first pixel. *)
Lemma calculate_indices_bounded_witness :
  sample_at (calculate_indices fixtures.early) "NDVI" 0%nat
    = Some ((3000 - 1000) / (3000 + 1000)) ∧
  -1 <= (3000 - 1000) / (3000 + 1000) ∧ (3000 - 1000) / (3000 + 1000) <= 1.
Proof.
  split; [reflexivity |].
  apply (calculate_indices_bounded fixtures.early
           (default [] (calculate_indices fixtures.early)) 6 "NDVI"
           (default (EE.constant 0)
              (EE.normalizedDifference fixtures.early "B8" "B4")) 0%nat);
    [reflexivity | simpl; lia | reflexivity | reflexivity].
Defined.

(** The water index of [early]. *)
Lemma calculate_indices_sign_witness :
  ∃ a b name' f,
    EE.select fixtures.early "B3" = Some a ∧
    EE.select fixtures.early "B8" = Some b ∧
    default [] (calculate_indices fixtures.early) !! (6 + 1)%nat
      = Some (name', f) ∧
    ("NDWI" ∉ EE.bandNames fixtures.early → name' = "NDWI") ∧
    ∀ p,
      (∀ v, f p = Some v →
            ∃ x y, a p = Some x ∧ b p = Some y ∧ 0 <= x ∧ 0 <= y ∧
                   (0 < v ↔ y < x)) ∧
      (∀ x y, a p = Some x → b p = Some y → 0 <= x → 0 <= y →
              ¬ x + y == 0 →
              ∃ v, f p = Some v ∧ v == (x - y) / (x + y)).
Proof.
  apply (calculate_indices_sign fixtures.early
           (default [] (calculate_indices fixtures.early)) 1 "NDWI" "B3" "B8");
    [reflexivity | by right; left].
Defined.

(** Selecting from the indices of [early]. *)
Lemma calculate_indices_select_witness :
  (∀ n, n ∈ EE.bandNames fixtures.early →
        EE.select (default [] (calculate_indices fixtures.early)) n
          = EE.select fixtures.early n) ∧
  ("NDVI" ∉ EE.bandNames fixtures.early →
   EE.select (default [] (calculate_indices fixtures.early)) "NDVI"
     = EE.normalizedDifference fixtures.early "B8" "B4") ∧
  ("NDWI" ∉ EE.bandNames fixtures.early →
   EE.select (default [] (calculate_indices fixtures.early)) "NDWI"
     = EE.normalizedDifference fixtures.early "B3" "B8") ∧
  ("NDBI" ∉ EE.bandNames fixtures.early →
   EE.select (default [] (calculate_indices fixtures.early)) "NDBI"
     = EE.normalizedDifference fixtures.early "B11" "B8").
Proof.
  apply (calculate_indices_select fixtures.early). reflexivity.
Defined.

(** [ndvi4] against an image with another name, a second band and other
    samples outside [roi3]. *)
Lemma calculate_area_agree_witness :
  match calculate_area fixtures.hectare samples.ndvi4 samples.roi3
          (EE.Finite (1 # 1000)),
        calculate_area fixtures.hectare
          [("nd", EE.band_of_list [Some (2 # 4); Some (1 # 4); None; Some 1]);
           ("B8", EE.constant 7)]
          samples.roi3 (EE.Finite (1 # 1000)) with
  | Some a1, Some a2 => a1 == a2
  | None, None => True
  | _, _ => False
  end.
Proof.
  apply (calculate_area_agree fixtures.hectare "NDVI" "nd" samples.ndvi4_band
           (EE.band_of_list [Some (2 # 4); Some (1 # 4); None; Some 1])
           [] [("B8", EE.constant 7)] samples.roi3 (EE.Finite (1 # 1000))).
  intros p Hp.
  repeat (apply elem_of_cons in Hp as [-> | Hp]; [by vm_compute |]).
  by apply elem_of_nil in Hp.
Defined.

(** [ndvi4] at the thresholds 1/1000 and 3/10. *)
Lemma calculate_area_antitone_witness :
  ∃ a1 a2,
    calculate_area fixtures.hectare samples.ndvi4 samples.roi4
      (EE.Finite (1 # 1000)) = Some a1 ∧
    calculate_area fixtures.hectare samples.ndvi4 samples.roi4
      (EE.Finite (3 # 10)) = Some a2 ∧
    0 <= a2 ∧ a2 <= a1.
Proof.
  eexists _, _. split; [vm_compute; reflexivity |].
  split; [vm_compute; reflexivity |].
  apply (calculate_area_antitone fixtures.hectare "NDVI" samples.ndvi4_band []
           samples.roi4 (1 # 1000) (3 # 10));
    [intros p _; discriminate | discriminate | discriminate
    | vm_compute; reflexivity | vm_compute; reflexivity].
Defined.


(** The vegetation index of [early] over [plot]. *)
Lemma index_area_bounded_witness :
  ∃ a,
    (calculate_indices fixtures.early ≫= λ out, select_image out "NDVI")
      ≫= (λ f, calculate_area fixtures.hectare f fixtures.plot
                 (EE.Finite (1 # 1000))) = Some a ∧
    0 <= a ∧ a <= total_area fixtures.plot fixtures.hectare.
Proof.
  eexists. split; [vm_compute; reflexivity |].
  apply (index_area_bounded fixtures.hectare fixtures.early
           (default [] (calculate_indices fixtures.early)) "NDVI"
           (default []
              (select_image (default [] (calculate_indices fixtures.early))
                 "NDVI"))
           fixtures.plot (1 # 1000)).
  - intros p _. discriminate.
  - discriminate.
  - reflexivity.
  - by left.
  - apply (bool_decide_unpack _). vm_compute. reflexivity.
  - reflexivity.
  - vm_compute. reflexivity.
Defined.

(** The water-index percentage over the sample archive. *)
Lemma percentage_change_bounded_witness :
  ∃ pct,
    ndwi_percentage_change fixtures.archive fixtures.plot fixtures.hectare
      = Some pct ∧
    -100 <= pct ∧ pct <= 100.
Proof.
  eexists. split; [vm_compute; reflexivity |].
  apply (percentage_change_bounded fixtures.archive fixtures.plot
           fixtures.hectare).
  - intros p _. discriminate.
  - intros name img Hname Himg.
    assert (EE.bandNames img = ["B8"; "B4"; "B3"; "B11"; "B2"; "SCL"]) as ->.
    { destruct Himg as [H | H]; vm_compute in H; by injection H as <-. }
    intros Hin.
    repeat (apply elem_of_cons in Hname as [-> | Hname];
            [repeat (apply elem_of_cons in Hin as [Hin | Hin];
                     [discriminate |]);
             by apply elem_of_nil in Hin |]).
    by apply elem_of_nil in Hname.
  - right; left. vm_compute. reflexivity.
Defined.


(** The water increase over the sample archive. *)
Lemma ndwi_increase_positive_witness :
  ∃ name d f,
    ndwi_diff fixtures.archive fixtures.plot = Some [(name, d)] ∧
    default [] (ndwi_increase fixtures.archive fixtures.plot) = [(name, f)] ∧
    ∀ p v, f p = Some v ↔ d p = Some v ∧ 0 < v.
Proof.
  apply (ndwi_increase_positive fixtures.archive fixtures.plot).
  vm_compute. reflexivity.
Defined.

(** The two epoch collections of the sample archive. *)
Lemma pre_flood_sublist_post_flood_witness :
  default [] (pre_flood fixtures.archive fixtures.plot)
    `sublist_of` default [] (post_flood fixtures.archive fixtures.plot).
Proof.
  apply (pre_flood_sublist_post_flood fixtures.archive fixtures.plot);
    vm_compute; reflexivity.
Defined.

(** The near-infrared band of the pre-event composite at the cloudy
    pixel 1. *)
Lemma composite_masked_pixels_witness :
  ∃ b, default [] (pre_flood_median fixtures.archive fixtures.plot) !! 0%nat
         = Some ("B8", b) ∧
       (b 1%nat = None ↔
        ∀ s band scl,
          s ∈ EE.filterDate PRE_FLOOD_RANGE.1 PRE_FLOOD_RANGE.2
                (sentinel2 fixtures.archive fixtures.plot) →
          EE.select (EE.bands s) "B8" = Some band →
          EE.select (EE.bands s) "SCL" = Some scl →
          band 1%nat = None ∨ scl 1%nat = None ∨
          ∃ c, scl 1%nat = Some c ∧
               (c == 3 ∨ c == 8 ∨ c == 9 ∨ c == 10 ∨ c == 11)).
Proof.
  eexists. split; [vm_compute; reflexivity |].
  apply (composite_masked_pixels fixtures.archive fixtures.plot _
           (default [] (pre_flood_median fixtures.archive fixtures.plot))
           0 "B8").
  - left. split; [reflexivity | vm_compute; reflexivity].
  - vm_compute. reflexivity.
Defined.

(** The post-event composite of the sample archive, whose window holds
    two scenes, and of its reverse. *)
Lemma composite_order_independent_witness :
  acquisition_dates (post_flood fixtures.archive fixtures.plot)
    = Some [EE.date 2024 9 5; EE.date 2024 10 20] ∧
  acquisition_dates (post_flood (reverse fixtures.archive) fixtures.plot)
    = Some [EE.date 2024 10 20; EE.date 2024 9 5] ∧
  ∃ img',
    post_flood_median (reverse fixtures.archive) fixtures.plot = Some img' ∧
    image_eq (default [] (post_flood_median fixtures.archive fixtures.plot))
             img'.
Proof.
  split; [vm_compute; reflexivity |]. split; [vm_compute; reflexivity |].
  apply (composite_order_independent post_flood_median fixtures.archive
           (reverse fixtures.archive) fixtures.plot).
  - by right.
  - symmetry. apply reverse_Permutation.
  - intros s s' Hs Hs'.
    repeat (apply elem_of_cons in Hs as [-> | Hs]);
      [| | | by apply elem_of_nil in Hs];
      (repeat (apply elem_of_cons in Hs' as [-> | Hs']);
       [| | | by apply elem_of_nil in Hs']); reflexivity.
  - vm_compute. reflexivity.
Defined.

